(** * Stake manager of the polybft consensus: validator ledger and selection

    A shallow embedding of [consensus/polybft/state_store_stake.go] (the
    stake store and the stake manager) together with the properties its
    specification states about it.

    Conventions of the embedding:
    - [types.Address] ([20]byte) is a list of bytes, each byte an [N];
      [bytes.Compare] is the lexicographic comparison of such lists.
    - [*big.Int] is [Z]; [uint64] and [int] are [Z] with the conversion
      [int(x)] written out as two's complement wrap-around on 64 bits.
    - [validatorStakeMap] (a Go map of pointers) is a [gmap]; an in-place
      update through a pointer is an [insert] at the same key.
    - Go leaves the iteration order of [range] over a map unspecified: every
      function that ranges over the ledger takes the enumeration
      [range_map] as an argument, and the theorems quantify over every
      enumeration that lists each entry exactly once ([RangeOk]).
    - A run-time panic (nil dereference, slice bounds) is an outcome of its
      own, distinct from a returned [error]. *)

From Stdlib Require Import ZArith List Lia Sorted Permutation.
From stdpp Require Import base option list numbers gmap sets fin_maps sorting.

Local Open Scope Z_scope.

(** ** Data model *)

(** [types.Address]: a fixed-width byte string. *)
Abbreviation types_Address := (list N).

(** [types.ZeroAddress]. *)
Definition ZeroAddress : types_Address := replicate 20 0%N.

(** [*bls.PublicKey], kept as its marshalled bytes; a nil pointer is [None]
    at the use site. *)
Abbreviation PublicKey := (list N).

(** [validator.ValidatorMetadata]. *)
Record ValidatorMetadata := mkValidatorMetadata {
  Address : types_Address;
  BlsKey : option PublicKey;
  VotingPower : Z;
  IsActive : bool
}.

(** [validator.AccountSet]: an ordered slice of validators. *)
Abbreviation AccountSet := (list ValidatorMetadata).

(** [validatorStakeMap]: the ledger, keyed by address. *)
Abbreviation validatorStakeMap := (gmap types_Address ValidatorMetadata).

(** [validatorSetState]: the single persisted record. *)
Record validatorSetState := mkValidatorSetState {
  BlockNumber : Z;
  EpochID : Z;
  UpdatedAtBlockNumber : Z;
  Validators : validatorStakeMap
}.

(** The bucket of [StakeStore]: the full validator set, if it was ever
    written ([raw == nil] otherwise). *)
Record StakeStore := mkStakeStore {
  fullValidatorSet : option validatorSetState
}.

(** Errors the stake manager returns. *)
Inductive error :=
| errNoFullValidatorSet
| errGetTransferEvents
| errFailedToGetFullValidatorSet (epoch : Z)
| errCouldNotRetrieveValidatorData (addr : types_Address)
| errApplyDelta.

(** Outcome of a call: a value, a returned error, or a run-time panic. *)
Inductive result (A : Type) :=
| Ok (a : A)
| Err (e : error)
| Panic.
Arguments Ok {A} a.
Arguments Err {A} e.
Arguments Panic {A}.

Definition bigZero : Z := 0.

(** [x.Cmp(y)] of [math/big]. *)
Definition Cmp (x y : Z) : comparison := x ?= y.

(** ** Byte order on addresses *)

(** [bytes.Compare]: lexicographic, a proper prefix sorts first. *)
Fixpoint bytes_Compare (a b : list N) : comparison :=
  match a, b with
  | [], [] => Eq
  | [], _ :: _ => Lt
  | _ :: _, [] => Gt
  | x :: a', y :: b' =>
      match (x ?= y)%N with
      | Eq => bytes_Compare a' b'
      | c => c
      end
  end.

(** ** Selection order *)

(** The closure handed to [sort.Slice] in [getSorted]. *)
Definition less (v1 v2 : ValidatorMetadata) : bool :=
  match Cmp (VotingPower v1) (VotingPower v2) with
  | Gt => true
  | Eq => match bytes_Compare (Address v1) (Address v2) with
          | Lt => true
          | _ => false
          end
  | Lt => false
  end.

(** [sort.Slice] promises a permutation of its input ordered by [less] and
    nothing about the order of elements neither of which is less than the
    other. It is realised here by a stable insertion sort (what Go itself runs
    on slices of up to twelve elements); [sorted_perm_unique] shows that on a
    ledger, where no two records tie, no sorting routine can return anything
    else. *)
Fixpoint sort_insert {A} (lt : A → A → bool) (x : A) (l : list A) : list A :=
  match l with
  | [] => [x]
  | y :: l' => if lt y x then y :: sort_insert lt x l' else x :: l
  end.

Fixpoint sort_Slice {A} (lt : A → A → bool) (l : list A) : list A :=
  match l with
  | [] => []
  | x :: l' => sort_insert lt x (sort_Slice lt l')
  end.

(** [int(x)] for [x : uint64] on a 64-bit platform. *)
Definition int_of_uint64 (x : Z) : Z :=
  (x + 2 ^ 63) mod 2 ^ 64 - 2 ^ 63.

(** An enumeration of the ledger lists every entry once, in some order. *)
Definition RangeOk
    (range_map : validatorStakeMap → list (types_Address * ValidatorMetadata)) : Prop :=
  ∀ sc, range_map sc ≡ₚ map_to_list sc.

(** The first loop of [getSorted]: the records with positive power, in the
    order the map is enumerated. *)
Definition activeValidators_of
    (range_map : validatorStakeMap → list (types_Address * ValidatorMetadata))
    (sc : validatorStakeMap) : AccountSet :=
  filter (λ v, Cmp (VotingPower v) bigZero = Gt) (snd <$> range_map sc).

(** [validatorStakeMap.getSorted]. [None] is the slice-bounds panic of
    [activeValidators[:maxValidatorSetSize]] on a negative bound. *)
Definition getSorted
    (range_map : validatorStakeMap → list (types_Address * ValidatorMetadata))
    (sc : validatorStakeMap) (maxValidatorSetSize : Z) : option AccountSet :=
  let activeValidators := sort_Slice less (activeValidators_of range_map sc) in
  if Z.of_nat (length activeValidators) <=? maxValidatorSetSize
  then Some activeValidators
  else if 0 <=? maxValidatorSetSize
       then Some (take (Z.to_nat maxValidatorSetSize) activeValidators)
       else None.

(** ** Ledger operations *)

(** [newValidatorStakeMap]: one copied record per account, keyed by the
    account's own address (a later duplicate overwrites an earlier one). *)
Definition newValidatorStakeMap (validatorSet : AccountSet) : validatorStakeMap :=
  foldl (λ stakeMap v, <[Address v := v]> stakeMap) ∅ validatorSet.

(** [validatorStakeMap.addStake]. *)
Definition addStake (sc : validatorStakeMap) (address : types_Address) (amount : Z)
    : validatorStakeMap :=
  match sc !! address with
  | Some metadata =>
      let power := VotingPower metadata + amount in
      <[address := {| Address := Address metadata;
                      BlsKey := BlsKey metadata;
                      VotingPower := power;
                      IsActive := match Cmp power bigZero with Gt => true | _ => false end |}]> sc
  | None =>
      <[address := {| Address := address;
                      BlsKey := None;
                      VotingPower := amount;
                      IsActive := match Cmp amount bigZero with Gt => true | _ => false end |}]> sc
  end.

(** [validatorStakeMap.removeStake]. The map lookup is not checked: for an
    address without an entry [stakeData] is nil and the field access panics
    ([None]). *)
Definition removeStake (sc : validatorStakeMap) (address : types_Address) (amount : Z)
    : option validatorStakeMap :=
  match sc !! address with
  | Some stakeData =>
      let power := VotingPower stakeData - amount in
      Some (<[address := {| Address := Address stakeData;
                            BlsKey := BlsKey stakeData;
                            VotingPower := power;
                            IsActive := match Cmp power bigZero with Gt => true | _ => false end |}]> sc)
  | None => None
  end.

(** ** Transfer events *)

(** [contractsapi.TransferEvent]. *)
Record TransferEvent := mkTransferEvent {
  From : types_Address;
  To : types_Address;
  Value : Z
}.

(** Modelled from the spec: the two classifiers [TransferEvent.IsStake] and
    [TransferEvent.IsUnstake] live in package [contractsapi], which is not
    among the sources. The spec classifies an event "as a stake (mint to
    validator) or unstake (burn from validator)"; a mint is a transfer out of
    the zero address and a burn a transfer into it. *)
Definition IsStake (t : TransferEvent) : bool :=
  bool_decide (From t = ZeroAddress) && negb (bool_decide (To t = ZeroAddress)).

Definition IsUnstake (t : TransferEvent) : bool :=
  negb (bool_decide (From t = ZeroAddress)) && bool_decide (To t = ZeroAddress).

(** ** The stake manager and its collaborators *)

(** [types.FullBlock]: only the block number is read here; the receipts are
    consumed by the events getter. *)
Record FullBlock := mkFullBlock {
  Block_Number : Z
}.

Record PostBlockRequest := mkPostBlockRequest {
  req_FullBlock : FullBlock;
  req_Epoch : Z
}.

Record PostEpochRequest := mkPostEpochRequest {
  NewEpochID : Z;
  ValidatorSet_Accounts : AccountSet
}.

(** The packages [getBlsKey] calls into ([contractsapi], [hex], [abi],
    [bls]), each represented by what it returns; [None] stands for a returned
    error or a failed type assertion. [validatorTypeABI_Decode_blsKey] is
    [validatorTypeABI.Decode] followed by the two assertions that extract the
    four integers of the field "blsKey". *)
Record Packages := mkPackages {
  GetValidatorFn_EncodeAbi : types_Address → option (list N);
  hex_DecodeHex : list N → option (list N);
  validatorTypeABI_Decode_blsKey : list N → option (list Z);
  bls_UnmarshalPublicKeyFromBigInt : list Z → option PublicKey
}.

(** [stakeManager]. The persistent state is passed to the hooks explicitly;
    the collaborators are represented by what they answer:
    - [logger_IsDebug]: the level of the logger;
    - [rootChainRelayer_Call]: the answer of the root chain to a view call
      (from, to, input), [None] when the call fails;
    - [eventsGetter_getFromBlocks]: the transfer events found from the last
      processed block up to the given block, [None] on failure. *)
Record stakeManager := mkStakeManager {
  logger_IsDebug : bool;
  rootChainRelayer_Call : types_Address → types_Address → list N → option (list N);
  key_Address : types_Address;
  supernetManagerContract : types_Address;
  eventsGetter_getFromBlocks : Z → FullBlock → option (list TransferEvent);
  imports : Packages
}.

(** [stakeManager.getBlsKey]: [(pubKey, nil)] is [Some pubKey] and
    [(nil, err)] is [None]; each step returns early on its error. *)
Definition getBlsKey (s : stakeManager) (address : types_Address) : option PublicKey :=
  encoded ← GetValidatorFn_EncodeAbi (imports s) address;
  response ← rootChainRelayer_Call s (key_Address s) (supernetManagerContract s) encoded;
  byteResponse ← hex_DecodeHex (imports s) response;
  blsKey ← validatorTypeABI_Decode_blsKey (imports s) byteResponse;
  bls_UnmarshalPublicKeyFromBigInt (imports s) blsKey.

(** What a run leaves behind besides its result, in order: the calls of
    [getBlsKey] (the lookup on the root chain) and the warnings written to the
    logger. *)
Inductive Effect :=
| CallGetBlsKey (address : types_Address)
| WarnNeitherStakeNorUnstake
| WarnCouldNotGetInfo (block : Z) (address : types_Address).

(** The first loop of [updateWithReceipts]: apply the events in order. *)
Fixpoint applyTransferEvents (sc : validatorStakeMap) (transferEvents : list TransferEvent)
    : list Effect * option validatorStakeMap :=
  match transferEvents with
  | [] => ([], Some sc)
  | event :: rest =>
      if IsStake event then
        applyTransferEvents (addStake sc (To event) (Value event)) rest
      else if IsUnstake event then
        match removeStake sc (From event) (Value event) with
        | Some sc' => applyTransferEvents sc' rest
        | None => ([], None)
        end
      else
        let '(tr, r) := applyTransferEvents sc rest in
        (WarnNeitherStakeNorUnstake :: tr, r)
  end.

(** The body of the second loop of [updateWithReceipts], for one entry. *)
Definition resolveEntry (s : stakeManager) (block : Z)
    (acc : list Effect * validatorStakeMap) (kv : types_Address * ValidatorMetadata)
    : list Effect * validatorStakeMap :=
  let '(tr, sc) := acc in
  let '(addr, data) := kv in
  let '(tr', blsKey) :=
    match BlsKey data with
    | None =>
        match getBlsKey s (Address data) with
        | Some k => (tr ++ [CallGetBlsKey (Address data)], Some k)
        | None => (tr ++ [CallGetBlsKey (Address data); WarnCouldNotGetInfo block addr], None)
        end
    | Some k => (tr, Some k)
    end in
  (tr', <[addr := {| Address := Address data;
                     BlsKey := blsKey;
                     VotingPower := VotingPower data;
                     IsActive := match Cmp (VotingPower data) bigZero with Gt => true | _ => false end |}]> sc).

Section StakeManager.

(** The order in which the Go runtime enumerates a ledger. *)
Variable range_map : validatorStakeMap → list (types_Address * ValidatorMetadata).

(** [stakeManager.updateWithReceipts]. *)
Definition updateWithReceipts (s : stakeManager)
    (fvs : validatorSetState) (fullBlock : FullBlock)
    : list Effect * result validatorSetState :=
  match eventsGetter_getFromBlocks s (BlockNumber fvs) fullBlock with
  | None => ([], Err errGetTransferEvents)
  | Some [] => ([], Ok fvs)
  | Some transferEvents =>
      match applyTransferEvents (Validators fvs) transferEvents with
      | (tr, None) => (tr, Panic)
      | (tr, Some sc) =>
          let '(tr', sc') :=
            foldl (resolveEntry s (Block_Number fullBlock)) (tr, sc) (range_map sc) in
          (tr', Ok {| BlockNumber := BlockNumber fvs;
                      EpochID := EpochID fvs;
                      UpdatedAtBlockNumber := BlockNumber fvs;
                      Validators := sc' |})
      end
  end.

(** [StakeStore.getFullValidatorSet]. *)
Definition getFullValidatorSet (st : StakeStore) : result validatorSetState :=
  match fullValidatorSet st with
  | Some fvs => Ok fvs
  | None => Err errNoFullValidatorSet
  end.

(** [StakeStore.insertFullValidatorSet]: one atomic replace. *)
Definition insertFullValidatorSet (st : StakeStore) (fvs : validatorSetState) : StakeStore :=
  {| fullValidatorSet := Some fvs |}.

(** [stakeManager.PostEpoch]. *)
Definition PostEpoch (st : StakeStore) (req : PostEpochRequest) : StakeStore :=
  if negb (NewEpochID req =? 1) then st
  else insertFullValidatorSet st
         {| BlockNumber := 0;
            EpochID := 0;
            UpdatedAtBlockNumber := 0;
            Validators := newValidatorStakeMap (ValidatorSet_Accounts req) |}.

(** [stakeManager.PostBlock]: the new content of the store on success. *)
Definition PostBlock (s : stakeManager) (st : StakeStore) (req : PostBlockRequest)
    : list Effect * result StakeStore :=
  match getFullValidatorSet st with
  | Err e => ([], Err e)
  | Panic => ([], Panic)
  | Ok fvs =>
      match updateWithReceipts s fvs (req_FullBlock req) with
      | (tr, Err e) => (tr, Err e)
      | (tr, Panic) => (tr, Panic)
      | (tr, Ok fvs') =>
          (tr, Ok (insertFullValidatorSet st
                     {| BlockNumber := Block_Number (req_FullBlock req);
                        EpochID := req_Epoch req;
                        UpdatedAtBlockNumber := UpdatedAtBlockNumber fvs';
                        Validators := Validators fvs' |}))
      end
  end.

(** [StakeStore.GetAllValidators]. *)
Definition GetAllValidators (st : StakeStore) : result AccountSet :=
  match getFullValidatorSet st with
  | Err e => Err e
  | Panic => Panic
  | Ok fvs =>
      match getSorted range_map (Validators fvs) (Z.of_nat (size (Validators fvs))) with
      | Some l => Ok l
      | None => Panic
      end
  end.

End StakeManager.

(** ** Removal bitmap and validator set delta *)

(** Modelled from the spec: [bitmap.Bitmap] and its methods [Set] and
    [IsSet] belong to package [consensus/polybft/bitmap], which is not among
    the sources. The spec describes "a bitmap over positions in the previous
    ordered active set", "a bit per index": it is kept the way the package
    stores it, as a byte slice grown on demand in which position [idx] is bit
    [idx mod 8] of byte [idx / 8]. *)
Abbreviation Bitmap := (list Z).

Definition Bitmap_Len (b : Bitmap) : Z := 8 * Z.of_nat (length b).

Definition extendByteSlice (b : list Z) (needLen : nat) : list Z :=
  b ++ replicate (needLen - length b) 0.

Definition Bitmap_Set (b : Bitmap) (idx : Z) : Bitmap :=
  let index := Z.to_nat (idx / 8) in
  let bit := Z.shiftl 1 (idx mod 8) in
  alter (λ byte, Z.lor byte bit) index (extendByteSlice b (index + 1)).

Definition Bitmap_IsSet (b : Bitmap) (idx : Z) : bool :=
  if Bitmap_Len b <=? idx then false
  else negb (Z.land (nth (Z.to_nat (idx / 8)) b 0) (Z.shiftl 1 (idx mod 8)) =? 0).

(** [validator.ValidatorSetDelta]. *)
Record ValidatorSetDelta := mkValidatorSetDelta {
  Added : AccountSet;
  Updated : AccountSet;
  Removed : Bitmap
}.

(** ** Validator set selector *)

(** The set of addresses of the next validator set ([addressesSet]). *)
Definition addressesSet_of (newValidatorSet : AccountSet) : gset types_Address :=
  foldl (λ addressesSet si, {[Address si]} ∪ addressesSet) ∅ newValidatorSet.

(** The loop of [UpdateValidatorSet] over the previous set, from position
    [i] on: it fills [oldActiveMap] and the removal bitmap. *)
Fixpoint scanOldValidatorSet (addressesSet : gset types_Address) (i : Z)
    (oldValidatorSet : AccountSet)
    (acc : gmap types_Address ValidatorMetadata * Bitmap)
    : gmap types_Address ValidatorMetadata * Bitmap :=
  match oldValidatorSet with
  | [] => acc
  | validator :: rest =>
      let '(oldActiveMap, removedBitmap) := acc in
      scanOldValidatorSet addressesSet (i + 1) rest
        (<[Address validator := validator]> oldActiveMap,
         if decide (Address validator ∈ addressesSet) then removedBitmap
         else Bitmap_Set removedBitmap i)
  end.

(** The loop of [UpdateValidatorSet] over the new set: it grows [updated]
    and [added], and stops at the first key that cannot be retrieved. *)
Fixpoint diffNewValidatorSet (s : stakeManager)
    (oldActiveMap : gmap types_Address ValidatorMetadata)
    (newValidatorSet : AccountSet) (updatedValidators addedValidators : AccountSet)
    : result (AccountSet * AccountSet) :=
  match newValidatorSet with
  | [] => Ok (updatedValidators, addedValidators)
  | newValidator :: rest =>
      match oldActiveMap !! Address newValidator with
      | Some oldValidator =>
          match Cmp (VotingPower oldValidator) (VotingPower newValidator) with
          | Eq => diffNewValidatorSet s oldActiveMap rest updatedValidators addedValidators
          | _ => diffNewValidatorSet s oldActiveMap rest
                   (updatedValidators ++ [newValidator]) addedValidators
          end
      | None =>
          match BlsKey newValidator with
          | Some _ =>
              diffNewValidatorSet s oldActiveMap rest updatedValidators
                (addedValidators ++ [newValidator])
          | None =>
              match getBlsKey s (Address newValidator) with
              | None => Err (errCouldNotRetrieveValidatorData (Address newValidator))
              | Some k =>
                  diffNewValidatorSet s oldActiveMap rest updatedValidators
                    (addedValidators ++
                       [{| Address := Address newValidator;
                           BlsKey := Some k;
                           VotingPower := VotingPower newValidator;
                           IsActive := IsActive newValidator |}])
              end
          end
      end
  end.

Section Selector.

Variable range_map : validatorStakeMap → list (types_Address * ValidatorMetadata).

(** [AccountSet.ApplyDelta] of package [validator] (not among the sources):
    it is called on a copy of the old set when the logger is at debug level,
    and only its failure is visible to the caller. *)
Variable ApplyDelta : AccountSet → ValidatorSetDelta → option AccountSet.

(** [stakeManager.UpdateValidatorSet]. *)
Definition UpdateValidatorSet (s : stakeManager) (st : StakeStore)
    (epoch maxValidatorSetSize : Z) (oldValidatorSet : AccountSet)
    : result ValidatorSetDelta :=
  match getFullValidatorSet st with
  | Err _ => Err (errFailedToGetFullValidatorSet epoch)
  | Panic => Panic
  | Ok fullValidatorSet =>
      let stakeMap := Validators fullValidatorSet in
      match getSorted range_map stakeMap (int_of_uint64 maxValidatorSetSize) with
      | None => Panic
      | Some newValidatorSet =>
          let addressesSet := addressesSet_of newValidatorSet in
          let '(oldActiveMap, removedBitmap) :=
            scanOldValidatorSet addressesSet 0 oldValidatorSet (∅, []) in
          match diffNewValidatorSet s oldActiveMap newValidatorSet [] [] with
          | Err e => Err e
          | Panic => Panic
          | Ok (updatedValidators, addedValidators) =>
              let delta := {| Added := addedValidators;
                              Updated := updatedValidators;
                              Removed := removedBitmap |} in
              if logger_IsDebug s then
                match ApplyDelta oldValidatorSet delta with
                | None => Err errApplyDelta
                | Some _ => Ok delta
                end
              else Ok delta
          end
      end
  end.

End Selector.

(** * Vocabulary of the properties *)

(** ** Orders *)

(** Ascending byte order on addresses, as the specification words it. *)
Inductive lex_lt : list N → list N → Prop :=
| lex_lt_prefix y b : lex_lt [] (y :: b)
| lex_lt_head x y a b : (x < y)%N → lex_lt (x :: a) (y :: b)
| lex_lt_tail x a b : lex_lt a b → lex_lt (x :: a) (x :: b).

(** Descending voting power, ties broken by ascending address. *)
Definition precedes (v1 v2 : ValidatorMetadata) : Prop :=
  VotingPower v2 < VotingPower v1 ∨
  (VotingPower v1 = VotingPower v2 ∧ lex_lt (Address v1) (Address v2)).

(** [less y x = false]: [x] may stand before [y]. *)
Definition not_after (x y : ValidatorMetadata) : Prop := less y x = false.

(** ** Ledger invariants and enumerations *)

(** Every record is filed under its own address. The constructor of the
    ledger and every operation on it keep this (see [newValidatorStakeMap_wf],
    [addStake_wf], [removeStake_wf]), so it holds of every ledger the stake
    manager ever stores. *)
Definition ledger_wf (sc : validatorStakeMap) : Prop :=
  ∀ a v, sc !! a = Some v → Address v = a.

(** The active flag agrees with the stored power. *)
Definition flag_consistent (v : ValidatorMetadata) : Prop :=
  IsActive v = true ↔ 0 < VotingPower v.

Definition ledger_consistent (sc : validatorStakeMap) : Prop :=
  ∀ a v, sc !! a = Some v → flag_consistent v.

(** Voting power recorded for an address; none recorded counts as zero. *)
Definition powerOf (sc : validatorStakeMap) (a : types_Address) : Z :=
  match sc !! a with
  | Some v => VotingPower v
  | None => 0
  end.

(** The order-ignoring enumeration used as a reference. *)
Definition range_canonical
    : validatorStakeMap → list (types_Address * ValidatorMetadata) := map_to_list.

(** A second enumeration, visiting the entries the other way round. *)
Definition range_reversed
    : validatorStakeMap → list (types_Address * ValidatorMetadata) :=
  λ sc, reverse (map_to_list sc).

(** ** Event sequences and the key-resolution loop *)

(** Amount minted to [a] by the stake events of a sequence. *)
Fixpoint staked (a : types_Address) (events : list TransferEvent) : Z :=
  match events with
  | [] => 0
  | event :: rest =>
      (if IsStake event && bool_decide (To event = a) then Value event else 0)
      + staked a rest
  end.

(** Amount burned from [a] by the unstake events of a sequence. *)
Fixpoint unstaked (a : types_Address) (events : list TransferEvent) : Z :=
  match events with
  | [] => 0
  | event :: rest =>
      (if IsUnstake event && bool_decide (From event = a) then Value event else 0)
      + unstaked a rest
  end.

(** Every unstake event names a sender that has an entry by the time the
    event is applied: [known] holds the addresses with an entry so far. *)
Fixpoint senders_known (known : gset types_Address) (events : list TransferEvent) : Prop :=
  match events with
  | [] => True
  | event :: rest =>
      if IsStake event then senders_known ({[To event]} ∪ known) rest
      else if IsUnstake event then From event ∈ known ∧ senders_known known rest
      else senders_known known rest
  end.

(** An address is touched by a sequence when a stake event names it as
    recipient or an unstake event names it as sender. *)
Definition touched (a : types_Address) (events : list TransferEvent) : Prop :=
  ∃ event, event ∈ events ∧
    ((IsStake event = true ∧ To event = a) ∨
     (IsStake event = false ∧ IsUnstake event = true ∧ From event = a)).

(** What the loop body makes of one record. *)
Definition resolved (s : stakeManager) (data : ValidatorMetadata) : ValidatorMetadata :=
  {| Address := Address data;
     BlsKey := match BlsKey data with
               | None => getBlsKey s (Address data)
               | Some k => Some k
               end;
     VotingPower := VotingPower data;
     IsActive := match Cmp (VotingPower data) bigZero with Gt => true | _ => false end |}.

(** What the loop body leaves behind for one entry. *)
Definition entryEffects (s : stakeManager) (block : Z)
    (kv : types_Address * ValidatorMetadata) : list Effect :=
  match BlsKey kv.2 with
  | Some _ => []
  | None =>
      match getBlsKey s (Address kv.2) with
      | Some _ => [CallGetBlsKey (Address kv.2)]
      | None => [CallGetBlsKey (Address kv.2); WarnCouldNotGetInfo block kv.1]
      end
  end.

(** ** Bitmap positions and the selection *)

(** The bit a position denotes. *)
Definition Bitmap_bit (b : Bitmap) (idx : Z) : bool :=
  Z.testbit (nth (Z.to_nat (idx / 8)) b 0) (idx mod 8).

(** [x] is not required to come after [y]: the order of the specification
    read on records that may tie. *)
Definition no_later (x y : ValidatorMetadata) : Prop := ¬ precedes y x.

(** The selection as the specification words it: exactly the entries with
    positive power, in descending order of power with ties broken by
    ascending address, cut to the first [maxSize]. *)
Definition is_selection (sc : validatorStakeMap) (maxSize : nat) (res : AccountSet) : Prop :=
  ∃ s, (∀ v, v ∈ s ↔ ∃ a, sc !! a = Some v ∧ 0 < VotingPower v) ∧
       StronglySorted precedes s ∧
       res = take maxSize s.

(** A validator as [addStake] first records it. *)
Definition staker (a : types_Address) (p : Z) : ValidatorMetadata :=
  {| Address := a; BlsKey := None; VotingPower := p;
     IsActive := match Cmp p bigZero with Gt => true | _ => false end |}.

(** The ledger obtained by staking in the given order. *)
Definition ledger_of_stakes (order : list (types_Address * Z)) : validatorStakeMap :=
  foldl (λ sc ap, addStake sc ap.1 ap.2) ∅ order.

(** ** Data of the examples *)

(** The 20-byte address whose last byte is [n]. *)
Definition addr (n : N) : types_Address := replicate 19 0%N ++ [n].

Definition addrA : types_Address := addr 1.
Definition addrB : types_Address := addr 2.
Definition addrC : types_Address := addr 3.
Definition addrD : types_Address := addr 4.

(** Codecs that pass the bytes through unchanged. *)
Definition plain_imports : Packages :=
  {| GetValidatorFn_EncodeAbi := λ a, Some a;
     hex_DecodeHex := λ r, Some r;
     validatorTypeABI_Decode_blsKey := λ b, Some (Z.of_N <$> b);
     bls_UnmarshalPublicKeyFromBigInt := λ k, Some (Z.to_N <$> k) |}.

(** A manager with the given logger level, root-chain answers and events
    of the block at hand. *)
Definition manager_of (debug : bool)
    (call : types_Address → types_Address → list N → option (list N))
    (events : list TransferEvent) : stakeManager :=
  {| logger_IsDebug := debug;
     rootChainRelayer_Call := call;
     key_Address := addr 200;
     supernetManagerContract := addr 201;
     eventsGetter_getFromBlocks := λ _ _, Some events;
     imports := plain_imports |}.

(** A manager whose root-chain calls all fail and whose blocks carry no
    event, logging above debug level. *)
Definition quiet_manager : stakeManager := manager_of false (λ _ _ _, None) [].

(** [ApplyDelta] as a collaborator that always succeeds. *)
Definition ApplyDelta_ok : AccountSet → ValidatorSetDelta → option AccountSet :=
  λ old _, Some old.

(** A store holding the given ledger. *)
Definition store_of (sc : validatorStakeMap) : StakeStore :=
  {| fullValidatorSet :=
       Some {| BlockNumber := 0; EpochID := 0; UpdatedAtBlockNumber := 0;
               Validators := sc |} |}.

(** The ledger of the scenario, staked in the order B, C, A. *)
Definition scenario_ledger : validatorStakeMap :=
  ledger_of_stakes [(addrB, 10); (addrC, 5); (addrA, 10)].

(** The previous active set used by the examples: A and D with power 10. *)
Definition example_old_set : AccountSet :=
  [ {| Address := addrA; BlsKey := Some [7%N]; VotingPower := 10; IsActive := true |};
    {| Address := addrD; BlsKey := Some [9%N]; VotingPower := 10; IsActive := true |} ].

(** A manager whose root chain holds a key for every address, logging at
    debug level. *)
Definition keyed_manager : stakeManager :=
  manager_of true (λ _ _ input, Some (input ++ [255%N])) [].

(** The delta from [example_old_set] to the top two of the scenario: D
    (position 1) leaves, B joins with the key the root chain holds. *)
Definition example_delta : ValidatorSetDelta :=
  {| Added := [ {| Address := addrB; BlsKey := Some (addrB ++ [255%N]);
                   VotingPower := 10; IsActive := true |} ];
     Updated := [];
     Removed := [2] |}.

(** Every ledger a store holds files each record under its own address. *)
Definition store_wf (st : StakeStore) : Prop :=
  ∀ fvs, fullValidatorSet st = Some fvs → ledger_wf (Validators fvs).

(** A ledger in which A staked 10 and withdrew all of it, and B staked 4. *)
Definition ledger_with_zeroed_entry : validatorStakeMap :=
  match removeStake (ledger_of_stakes [(addrA, 10); (addrB, 4)]) addrA 10 with
  | Some sc => sc
  | None => ∅
  end.

(** A block in which B stakes 3 for the first time. *)
Definition stake_event_B : TransferEvent :=
  {| From := ZeroAddress; To := addrB; Value := 3 |}.

Definition manager_with_stake_B : stakeManager :=
  manager_of false (λ _ _ _, None) [stake_event_B].

Definition block_7_request : PostBlockRequest :=
  {| req_FullBlock := {| Block_Number := 7 |}; req_Epoch := 1 |}.

Definition keyed_A_ledger : validatorStakeMap :=
  {[ addrA := {| Address := addrA; BlsKey := Some [7%N]; VotingPower := 10; IsActive := true |} ]}.

(** A block whose only event burns 1 from A. *)
Definition unstake_event_A : TransferEvent :=
  {| From := addrA; To := ZeroAddress; Value := 1 |}.

Definition manager_with_unstake_A : stakeManager :=
  manager_of false (λ _ _ _, None) [unstake_event_A].

Definition empty_state : validatorSetState :=
  {| BlockNumber := 0; EpochID := 0; UpdatedAtBlockNumber := 0; Validators := ∅ |}.

(** A block in which A stakes 5 more, unstakes 12, and B stakes 3. *)
Definition three_events : list TransferEvent :=
  [ {| From := ZeroAddress; To := addrA; Value := 5 |};
    {| From := addrA; To := ZeroAddress; Value := 12 |};
    stake_event_B ].

Definition manager_with_three_events : stakeManager :=
  manager_of false (λ _ _ _, None) three_events.

Definition keyed_A_state : validatorSetState :=
  {| BlockNumber := 6; EpochID := 1; UpdatedAtBlockNumber := 0;
     Validators := keyed_A_ledger |}.

(** ** Reachable ledgers *)

(** The ledgers the stake manager can hold after [PostEpoch] stored the
    ledger of [genesis]: each step is one ledger-mutating operation. *)
Inductive ledger_reachable (genesis : AccountSet) : validatorStakeMap → Prop :=
| reach_PostEpoch :
    ledger_reachable genesis (newValidatorStakeMap genesis)
| reach_addStake sc address amount :
    ledger_reachable genesis sc →
    ledger_reachable genesis (addStake sc address amount)
| reach_removeStake sc address amount sc' :
    ledger_reachable genesis sc →
    removeStake sc address amount = Some sc' →
    ledger_reachable genesis sc'
| reach_updateWithReceipts range_map s fvs fullBlock tr fvs' :
    RangeOk range_map →
    ledger_reachable genesis (Validators fvs) →
    updateWithReceipts range_map s fvs fullBlock = (tr, Ok fvs') →
    ledger_reachable genesis (Validators fvs').

(** A genesis record flagged active although it has no power. *)
Definition flagged_without_power : ValidatorMetadata :=
  {| Address := addrA; BlsKey := Some [7%N]; VotingPower := 0; IsActive := true |}.

(** ** Exit event store *)

Module ExitEvents.

(** Modelled from the spec: the exit event store and the block hook of the
    checkpoint manager ([checkpointManager.PostBlock], [ExitEventStore]) are
    not among the sources; only their test
    ([TestCheckpointManager_PostBlock]) is. The specification says: "On each
    finalized block, receipts are scanned for bridge exit log events; each
    decoded event is attributed to a bucket keyed by (epoch id, block
    number). Special rule: exit events produced in an epoch-ending block are
    attributed to the first block of the next epoch, not the ending block
    itself". The hook receives the block number, the epoch id and the flag
    [isEpochEndingBlock] with the receipts, as [onFinalizedBlock] of the
    specification and the request of the test do. The request is taken to
    follow the last saved block, as in the test; backfill of a gap is not
    part of this model. *)
Record ExitEvent := mkExitEvent {
  ID : Z;
  EpochNumber : Z;
  BlockNumber : Z;
  Sender : types_Address;
  Receiver : types_Address;
  Data : list N
}.

(** An exit log of a receipt, decoded. *)
Record ExitLog := mkExitLog {
  log_ID : Z;
  log_Sender : types_Address;
  log_Receiver : types_Address;
  log_Data : list N
}.

Record PostBlockRequest := mkPostBlockRequest {
  Block : Z;
  Epoch : Z;
  IsEpochEndingBlock : bool;
  Receipts : list ExitLog
}.

(** Modelled from the spec: every exit log of the block becomes an event of
    the block's epoch and number. *)
Definition getExitEventsFromReceipts (epoch block : Z) (receipts : list ExitLog)
    : list ExitEvent :=
  (λ l, {| ID := log_ID l; EpochNumber := epoch; BlockNumber := block;
           Sender := log_Sender l; Receiver := log_Receiver l; Data := log_Data l |})
    <$> receipts.

(** Modelled from the spec: the first block of the next epoch follows the
    epoch-ending block. *)
Definition toNextEpoch (event : ExitEvent) : ExitEvent :=
  {| ID := ID event;
     EpochNumber := EpochNumber event + 1;
     BlockNumber := BlockNumber event + 1;
     Sender := Sender event; Receiver := Receiver event; Data := Data event |}.

(** Modelled from the spec: the store keeps every event it was given;
    events are written once and never changed. *)
Definition PostBlock (store : list ExitEvent) (req : PostBlockRequest) : list ExitEvent :=
  let exitEvents := getExitEventsFromReceipts (Epoch req) (Block req) (Receipts req) in
  store ++ (if IsEpochEndingBlock req then toNextEpoch <$> exitEvents else exitEvents).

(** Modelled from the spec: the stored events of an epoch that pass a
    filter, as the test queries them. *)
Definition getExitEvents (store : list ExitEvent) (epoch : Z) (keep : ExitEvent → bool)
    : list ExitEvent :=
  filter (λ e, (EpochNumber e =? epoch) && keep e = true) store.

(** Modelled from the spec: [isEndOfPeriod] is not among the sources. The
    specification calls a block due when it "is the last block of an epoch";
    which block that is, is fixed by [TestCheckpointManager_SubmitCheckpoint]
    under src: with epoch size 2 a block [i] with [i % epochSize == 1] begins
    an epoch, and the checkpointed blocks 4, 6, 8 and 10 are required to
    satisfy [isEndOfPeriod]. A block ends its epoch when its number is a
    multiple of the epoch size. *)
Definition isEndOfPeriod (blockNumber epochSize : Z) : bool :=
  blockNumber mod epochSize =? 0.

(** Modelled from the spec: [getEpochNumber] is not among the sources. The
    same test numbers the epochs from 1 and raises the number at every
    epoch-beginning block, so blocks 1..10 of epoch size 2 lie in the epochs
    1, 1, 2, 2, 3, 3, 4, 4, 5, 5. *)
Definition getEpochNumber (blockNumber epochSize : Z) : Z :=
  if isEndOfPeriod blockNumber epochSize then blockNumber / epochSize
  else blockNumber / epochSize + 1.


(** The receipts [createReceipts(startID, startID + n)] of the test. *)
Definition createReceipts (startID : Z) (n : nat) : list ExitLog :=
  (λ i, {| log_ID := startID + Z.of_nat i;
           log_Sender := addr 17; log_Receiver := addr 34; log_Data := [] |})
    <$> seq 0 n.

End ExitEvents.

(** ** Hooks, runs and the reading of a delta *)

(** The two hooks through which the consensus engine changes the store. *)
Inductive Hook :=
| HookPostEpoch (req : PostEpochRequest)
| HookPostBlock (req : PostBlockRequest).

(** One hook call: a [PostBlock] that returns an error (or panics) has not
    reached [insertFullValidatorSet], so the store is as it was. *)
Definition runHook
    (range_map : validatorStakeMap → list (types_Address * ValidatorMetadata))
    (s : stakeManager) (st : StakeStore) (h : Hook) : StakeStore :=
  match h with
  | HookPostEpoch req => PostEpoch st req
  | HookPostBlock req =>
      match PostBlock range_map s st req with
      | (_, Ok st') => st'
      | _ => st
      end
  end.

(** The store before anything was written to its bucket. *)
Definition empty_store : StakeStore := {| fullValidatorSet := None |}.

(** [oldActiveMap] as the first loop of [UpdateValidatorSet] leaves it:
    the previous set keyed by address. *)
Definition oldActiveMap_of (oldValidatorSet : AccountSet)
    : gmap types_Address ValidatorMetadata :=
  foldl (λ m v, <[Address v := v]> m) ∅ oldValidatorSet.

(** The new validator has an entry in [oldActiveMap] with another voting
    power: it goes to [Updated]. *)
Definition is_updated (oldActiveMap : gmap types_Address ValidatorMetadata)
    (v : ValidatorMetadata) : bool :=
  match oldActiveMap !! Address v with
  | Some o => negb (VotingPower o =? VotingPower v)
  | None => false
  end.

(** The new validator has no entry in [oldActiveMap]: it goes to [Added]. *)
Definition is_added (oldActiveMap : gmap types_Address ValidatorMetadata)
    (v : ValidatorMetadata) : bool :=
  match oldActiveMap !! Address v with
  | Some _ => false
  | None => true
  end.

(** A newcomer as it enters [Added]: with its stored key or, failing
    that, the key [getBlsKey] returns. *)
Definition with_key (s : stakeManager) (v : ValidatorMetadata) : ValidatorMetadata :=
  {| Address := Address v;
     BlsKey := match BlsKey v with
               | Some k => Some k
               | None => getBlsKey s (Address v)
               end;
     VotingPower := VotingPower v;
     IsActive := IsActive v |}.

(** The delta that changes nothing. *)
Definition empty_delta : ValidatorSetDelta :=
  {| Added := []; Updated := []; Removed := [] |}.

(** * Properties *)

(** ** The byte order is a strict total order *)

Lemma bytes_Compare_refl a : bytes_Compare a a = Eq.
Proof.
  induction a as [|x a IH]; simpl; [done|].
  by rewrite N.compare_refl.
Qed.

Lemma bytes_Compare_Eq a b : bytes_Compare a b = Eq → a = b.
Proof.
  revert b; induction a as [|x a IH]; intros [|y b]; simpl; try done.
  destruct (x ?= y)%N eqn:Hxy; try done.
  apply N.compare_eq_iff in Hxy as ->. intros H. by rewrite (IH b H).
Qed.

Lemma bytes_Compare_antisym a b :
  bytes_Compare a b = CompOpp (bytes_Compare b a).
Proof.
  revert b; induction a as [|x a IH]; intros [|y b]; simpl; try done.
  rewrite (N.compare_antisym y x).
  destruct (y ?= x)%N; simpl; auto.
Qed.

Lemma bytes_Compare_Lt a b : bytes_Compare a b = Lt ↔ lex_lt a b.
Proof.
  split.
  - revert b; induction a as [|x a IH]; intros [|y b]; simpl; try done.
    + intros _. constructor.
    + destruct (x ?= y)%N eqn:Hxy; try done.
      * apply N.compare_eq_iff in Hxy as ->. intros H. apply lex_lt_tail; auto.
      * intros _. apply lex_lt_head. by apply N.compare_lt_iff.
  - induction 1 as [y b|x y a b Hxy|x a b _ IH]; simpl; try done.
    + apply N.compare_lt_iff in Hxy. by rewrite Hxy.
    + by rewrite N.compare_refl.
Qed.

Lemma lex_lt_irrefl a : ¬ lex_lt a a.
Proof.
  intros H%bytes_Compare_Lt. by rewrite bytes_Compare_refl in H.
Qed.

Lemma lex_lt_trans a b c : lex_lt a b → lex_lt b c → lex_lt a c.
Proof.
  intros Hab; revert c.
  induction Hab as [y b|x y a b Hxy|x a b _ IH]; intros c Hbc; inversion Hbc; subst.
  - constructor.
  - constructor.
  - apply lex_lt_head. lia.
  - by apply lex_lt_head.
  - by apply lex_lt_head.
  - apply lex_lt_tail. auto.
Qed.

Lemma lex_lt_total a b : a ≠ b → lex_lt a b ∨ lex_lt b a.
Proof.
  intros Hne. destruct (bytes_Compare a b) eqn:Hc.
  - by apply bytes_Compare_Eq in Hc.
  - left. by apply bytes_Compare_Lt.
  - right. apply bytes_Compare_Lt. rewrite bytes_Compare_antisym, Hc. done.
Qed.

(** ** The selection order *)

Lemma less_precedes v1 v2 : less v1 v2 = true ↔ precedes v1 v2.
Proof.
  unfold less, precedes, Cmp.
  destruct (Z.compare_spec (VotingPower v1) (VotingPower v2)) as [Heq|Hlt|Hgt].
  - destruct (bytes_Compare (Address v1) (Address v2)) eqn:Hc.
    + split; [done|]. intros [?|[_ H%bytes_Compare_Lt]]; [lia|congruence].
    + split; [|done]. intros _. right. split; [done|]. by apply bytes_Compare_Lt.
    + split; [done|]. intros [?|[_ H%bytes_Compare_Lt]]; [lia|congruence].
  - split; [done|]. intros [?|[? _]]; lia.
  - split; [|done]. intros _. by left.
Qed.

Lemma precedes_asym v1 v2 : precedes v1 v2 → precedes v2 v1 → False.
Proof.
  intros [H1|[H1 L1]] [H2|[H2 L2]]; try lia.
  eapply lex_lt_irrefl, lex_lt_trans; eauto.
Qed.

Lemma precedes_trans v1 v2 v3 : precedes v1 v2 → precedes v2 v3 → precedes v1 v3.
Proof.
  intros [H1|[H1 L1]] [H2|[H2 L2]]; unfold precedes; try (left; lia).
  right. split; [lia|]. eapply lex_lt_trans; eauto.
Qed.

Lemma precedes_total v1 v2 :
  Address v1 ≠ Address v2 → precedes v1 v2 ∨ precedes v2 v1.
Proof.
  intros Hne. unfold precedes.
  destruct (Z.lt_trichotomy (VotingPower v1) (VotingPower v2)) as [?|[?|?]];
    [right; by left| |left; by left].
  destruct (lex_lt_total _ _ Hne); [left|right]; right; by split.
Qed.

Lemma not_after_trans x y z : not_after x y → not_after y z → not_after x z.
Proof.
  unfold not_after. intros Hxy Hyz.
  destruct (less z x) eqn:Hzx; [|done].
  apply less_precedes in Hzx.
  destruct (decide (Address y = Address x)) as [Ha|Ha].
  - (* y and x tie on the address: compare the powers *)
    assert (Hzy : ¬ precedes z y) by (rewrite <- less_precedes, Hyz; done).
    assert (Hyx : ¬ precedes y x) by (rewrite <- less_precedes, Hxy; done).
    exfalso. unfold precedes in *. rewrite Ha in *.
    destruct Hzx as [?|[? ?]].
    + destruct (Z.lt_trichotomy (VotingPower y) (VotingPower x)) as [?|[?|?]].
      * apply Hzy. left. lia.
      * apply Hzy. left. lia.
      * apply Hyx. by left.
    + apply Hzy.
      destruct (Z.lt_trichotomy (VotingPower y) (VotingPower x)) as [?|[?|?]].
      * left. lia.
      * right. split; [lia|done].
      * exfalso. apply Hyx. by left.
  - destruct (precedes_total y x Ha) as [H|H].
    + apply less_precedes in H. congruence.
    + assert (precedes z y) as Hzy%less_precedes by (eapply precedes_trans; eauto).
      congruence.
Qed.

Lemma less_asym x y : less x y = true → less y x = false.
Proof.
  intros H%less_precedes. destruct (less y x) eqn:Hyx; [|done].
  apply less_precedes in Hyx. exfalso. eapply precedes_asym; eauto.
Qed.

(** ** [sort.Slice] returns a sorted permutation *)

Lemma sort_insert_perm {A} (lt : A → A → bool) x l : sort_insert lt x l ≡ₚ x :: l.
Proof.
  induction l as [|y l IH]; simpl; [done|].
  destruct (lt y x); [|done].
  rewrite IH. apply perm_swap.
Qed.

Lemma sort_Slice_perm {A} (lt : A → A → bool) l : sort_Slice lt l ≡ₚ l.
Proof.
  induction l as [|x l IH]; simpl; [done|].
  by rewrite sort_insert_perm, IH.
Qed.

Lemma sort_insert_sorted x l :
  StronglySorted not_after l → StronglySorted not_after (sort_insert less x l).
Proof.
  induction l as [|y l IH]; simpl; intros Hs.
  - repeat constructor.
  - apply StronglySorted_inv in Hs as [Hl Hy].
    destruct (less y x) eqn:Hyx.
    + constructor; [auto|].
      rewrite sort_insert_perm. constructor; [|done].
      by apply less_asym.
    + constructor; [by constructor|].
      constructor; [done|].
      eapply Forall_impl; [exact Hy|].
      intros z Hz. eapply not_after_trans; eauto.
Qed.

Lemma sort_Slice_sorted l : StronglySorted not_after (sort_Slice less l).
Proof.
  induction l as [|x l IH]; simpl; [constructor|].
  by apply sort_insert_sorted.
Qed.

(** With pairwise distinct addresses the order is strict. *)
Lemma not_after_strict l :
  NoDup (Address <$> l) → StronglySorted not_after l → StronglySorted precedes l.
Proof.
  induction l as [|x l IH]; intros Hnd Hs; [constructor|].
  rewrite fmap_cons in Hnd. apply NoDup_cons in Hnd as [Hx Hnd].
  apply StronglySorted_inv in Hs as [Hl Hall].
  constructor; [auto|].
  rewrite Forall_forall in *. intros y Hy.
  assert (Address x ≠ Address y) as Hne.
  { intros Heq. apply Hx. rewrite Heq. by apply list_elem_of_fmap_2. }
  destruct (precedes_total x y Hne) as [H|H]; [done|].
  apply less_precedes in H. specialize (Hall y Hy). unfold not_after in Hall. congruence.
Qed.

(** A list has at most one arrangement that is strictly ordered: whatever
    routine [sort.Slice] runs, and whatever order its input arrives in, the
    outcome is the same. *)
Lemma sorted_perm_unique (l1 l2 : AccountSet) :
  StronglySorted precedes l1 → StronglySorted precedes l2 → l1 ≡ₚ l2 → l1 = l2.
Proof.
  revert l2; induction l1 as [|x l1 IH]; intros l2 H1 H2 Hp.
  - by apply Permutation_nil_l in Hp.
  - destruct l2 as [|y l2]; [by apply Permutation_nil_r in Hp|].
    apply StronglySorted_inv in H1 as [H1 Hx].
    apply StronglySorted_inv in H2 as [H2 Hy].
    rewrite Forall_forall in Hx, Hy.
    assert (x = y) as ->.
    { assert (x ∈ y :: l2) as Hin by (rewrite <- Hp; left).
      assert (y ∈ x :: l1) as Hin' by (rewrite Hp; left).
      apply elem_of_cons in Hin as [?|Hin]; [done|].
      apply elem_of_cons in Hin' as [?|Hin']; [done|].
      exfalso. eapply precedes_asym; [apply Hx, Hin'|apply Hy, Hin]. }
    f_equal. apply IH; auto. by apply Permutation_cons_inv in Hp.
Qed.

(** ** Ledgers *)

Lemma range_canonical_ok : RangeOk range_canonical.
Proof. intros sc. done. Qed.

Lemma range_reversed_ok : RangeOk range_reversed.
Proof. intros sc. unfold range_reversed. by rewrite reverse_Permutation. Qed.

Lemma Cmp_Gt x : Cmp x bigZero = Gt ↔ 0 < x.
Proof. unfold Cmp, bigZero. rewrite Z.compare_gt_iff. lia. Qed.

Lemma Cmp_Gt_bool x :
  match Cmp x bigZero with Gt => true | _ => false end = true ↔ 0 < x.
Proof.
  rewrite <- Cmp_Gt. destruct (Cmp x bigZero); split; congruence.
Qed.

Section Enumeration.

Variable range_map : validatorStakeMap → list (types_Address * ValidatorMetadata).
Hypothesis range_ok : RangeOk range_map.

Lemma elem_of_range sc a v : (a, v) ∈ range_map sc ↔ sc !! a = Some v.
Proof. rewrite (range_ok sc). apply elem_of_map_to_list. Qed.

Lemma range_NoDup_addresses sc :
  ledger_wf sc → NoDup (Address <$> (snd <$> range_map sc)).
Proof.
  intros Hwf.
  assert (Address <$> (snd <$> range_map sc) = fst <$> range_map sc) as ->.
  { rewrite <- list_fmap_compose. apply Forall_fmap_ext, Forall_forall.
    intros [a v] Hin. simpl. apply Hwf. by apply elem_of_range. }
  rewrite (range_ok sc). apply NoDup_fst_map_to_list.
Qed.

Lemma elem_of_activeValidators sc v :
  v ∈ activeValidators_of range_map sc ↔ ∃ a, sc !! a = Some v ∧ 0 < VotingPower v.
Proof.
  unfold activeValidators_of. rewrite list_elem_of_filter, Cmp_Gt, list_elem_of_fmap.
  split.
  - intros [Hp [[a v'] [-> Hin]]]. exists a. split; [|done]. by apply elem_of_range.
  - intros [a [Hl Hp]]. split; [done|]. exists (a, v). split; [done|]. by apply elem_of_range.
Qed.

Lemma activeValidators_canonical sc :
  activeValidators_of range_map sc ≡ₚ activeValidators_of range_canonical sc.
Proof. unfold activeValidators_of, range_canonical. by rewrite (range_ok sc). Qed.

Lemma activeValidators_NoDup sc :
  ledger_wf sc → NoDup (Address <$> activeValidators_of range_map sc).
Proof.
  intros Hwf. eapply sublist_NoDup; [by apply range_NoDup_addresses|].
  apply fmap_sublist, sublist_filter.
Qed.

Lemma activeValidators_length sc :
  (length (activeValidators_of range_map sc) ≤ size sc)%nat.
Proof.
  unfold activeValidators_of.
  etrans; [apply length_filter|].
  rewrite length_fmap, (range_ok sc), length_map_to_list. done.
Qed.

(** The slice [getSorted] holds after [sort.Slice]. *)
Lemma sorted_active_strict sc :
  ledger_wf sc →
  StronglySorted precedes (sort_Slice less (activeValidators_of range_map sc)).
Proof.
  intros Hwf. apply not_after_strict; [|apply sort_Slice_sorted].
  rewrite sort_Slice_perm. by apply activeValidators_NoDup.
Qed.

Lemma sorted_active_canonical sc :
  ledger_wf sc →
  sort_Slice less (activeValidators_of range_map sc) =
  sort_Slice less (activeValidators_of range_canonical sc).
Proof.
  intros Hwf. apply sorted_perm_unique.
  - by apply sorted_active_strict.
  - apply not_after_strict; [|apply sort_Slice_sorted].
    rewrite sort_Slice_perm, <- activeValidators_canonical.
    by apply activeValidators_NoDup.
  - by rewrite !sort_Slice_perm, activeValidators_canonical.
Qed.

Lemma getSorted_canonical sc n :
  ledger_wf sc → getSorted range_map sc n = getSorted range_canonical sc n.
Proof.
  intros Hwf. unfold getSorted. by rewrite sorted_active_canonical.
Qed.

Lemma getSorted_nonneg sc n :
  0 ≤ n →
  getSorted range_map sc n =
  Some (take (Z.to_nat n) (sort_Slice less (activeValidators_of range_map sc))).
Proof.
  intros Hn. unfold getSorted.
  destruct (Z.leb_spec (Z.of_nat (length (sort_Slice less (activeValidators_of range_map sc)))) n).
  - rewrite take_ge; [done|lia].
  - destruct (Z.leb_spec 0 n); [done|lia].
Qed.

Lemma getSorted_negative sc n : n < 0 → getSorted range_map sc n = None.
Proof.
  intros Hn. unfold getSorted.
  destruct (Z.leb_spec (Z.of_nat (length (sort_Slice less (activeValidators_of range_map sc)))) n);
    [lia|].
  destruct (Z.leb_spec 0 n); [lia|done].
Qed.

End Enumeration.

Lemma int_of_uint64_small x : 0 ≤ x < 2 ^ 63 → int_of_uint64 x = x.
Proof.
  intros Hx. unfold int_of_uint64. rewrite Z.mod_small; lia.
Qed.

Lemma int_of_uint64_large x : 2 ^ 63 ≤ x < 2 ^ 64 → int_of_uint64 x = x - 2 ^ 64.
Proof.
  intros Hx. unfold int_of_uint64.
  replace (x + 2 ^ 63) with ((x - 2 ^ 63) + 1 * 2 ^ 64) by lia.
  rewrite Z.mod_add by lia. rewrite Z.mod_small; lia.
Qed.

(** ** Ledger operations: lookups *)

Lemma addStake_lookup_ne sc a amt b : a ≠ b → addStake sc a amt !! b = sc !! b.
Proof.
  intros Hne. unfold addStake. destruct (sc !! a); by rewrite lookup_insert_ne.
Qed.

Lemma addStake_lookup sc a amt :
  ∃ v, addStake sc a amt !! a = Some v ∧
       VotingPower v = powerOf sc a + amt ∧
       (IsActive v = true ↔ 0 < VotingPower v) ∧
       Address v = match sc !! a with Some w => Address w | None => a end ∧
       BlsKey v = match sc !! a with Some w => BlsKey w | None => None end.
Proof.
  unfold addStake, powerOf. destruct (sc !! a) as [w|]; eexists;
    (split; [apply lookup_insert_eq|]); simpl;
    repeat split; try apply Cmp_Gt_bool; try lia.
  all: rewrite Cmp_Gt_bool; lia.
Qed.

Lemma removeStake_Some sc a amt w :
  sc !! a = Some w →
  removeStake sc a amt =
  Some (<[a := {| Address := Address w;
                  BlsKey := BlsKey w;
                  VotingPower := VotingPower w - amt;
                  IsActive := match Cmp (VotingPower w - amt) bigZero with
                              | Gt => true | _ => false end |}]> sc).
Proof. intros H. unfold removeStake. by rewrite H. Qed.

Lemma removeStake_None sc a amt : sc !! a = None → removeStake sc a amt = None.
Proof. intros H. unfold removeStake. by rewrite H. Qed.

Lemma removeStake_is_Some sc a amt :
  is_Some (removeStake sc a amt) ↔ a ∈ dom sc.
Proof.
  rewrite elem_of_dom. unfold removeStake.
  destruct (sc !! a); split; intros H.
  - by eexists.
  - by eexists.
  - by apply is_Some_None in H.
  - by apply is_Some_None in H.
Qed.

Lemma removeStake_lookup_ne sc a amt sc' b :
  removeStake sc a amt = Some sc' → a ≠ b → sc' !! b = sc !! b.
Proof.
  unfold removeStake. destruct (sc !! a); [|done].
  intros [= <-] Hne. by rewrite lookup_insert_ne.
Qed.

Lemma removeStake_lookup sc a amt sc' :
  removeStake sc a amt = Some sc' →
  ∃ w v, sc !! a = Some w ∧ sc' !! a = Some v ∧
         VotingPower v = VotingPower w - amt ∧
         (IsActive v = true ↔ 0 < VotingPower v) ∧
         Address v = Address w ∧ BlsKey v = BlsKey w.
Proof.
  unfold removeStake. destruct (sc !! a) as [w|]; [|done].
  intros [= <-]. eexists w, _. split; [done|].
  split; [apply lookup_insert_eq|]. simpl. repeat split; try apply Cmp_Gt_bool.
Qed.

Lemma removeStake_dom sc a amt sc' :
  removeStake sc a amt = Some sc' → dom sc' = dom sc.
Proof.
  unfold removeStake. destruct (sc !! a) as [w|] eqn:Hl; [|done].
  intros [= <-]. rewrite dom_insert_L.
  apply subseteq_union_1_L, singleton_subseteq_l, elem_of_dom. eauto.
Qed.

Lemma addStake_dom sc a amt : dom (addStake sc a amt) = {[a]} ∪ dom sc.
Proof.
  unfold addStake. destruct (sc !! a); by rewrite dom_insert_L.
Qed.

Lemma powerOf_addStake sc a amt b :
  powerOf (addStake sc a amt) b =
  powerOf sc b + (if bool_decide (a = b) then amt else 0).
Proof.
  case_bool_decide as Hab.
  - subst b. destruct (addStake_lookup sc a amt) as (v & Hv & Hp & _).
    unfold powerOf at 1. by rewrite Hv.
  - unfold powerOf. rewrite addStake_lookup_ne by done. lia.
Qed.

Lemma powerOf_removeStake sc a amt sc' b :
  removeStake sc a amt = Some sc' →
  powerOf sc' b = powerOf sc b - (if bool_decide (a = b) then amt else 0).
Proof.
  intros Hr. case_bool_decide as Hab.
  - subst b. destruct (removeStake_lookup _ _ _ _ Hr) as (w & v & Hw & Hv & Hp & _).
    unfold powerOf. by rewrite Hw, Hv.
  - unfold powerOf. rewrite (removeStake_lookup_ne _ _ _ _ _ Hr Hab). lia.
Qed.

(** ** Ledger operations: the two record invariants *)

Lemma newValidatorStakeMap_lookup validatorSet a v :
  newValidatorStakeMap validatorSet !! a = Some v → v ∈ validatorSet ∧ Address v = a.
Proof.
  unfold newValidatorStakeMap.
  assert (∀ (m : validatorStakeMap),
    foldl (λ stakeMap v, <[Address v := v]> stakeMap) m validatorSet !! a = Some v →
    (v ∈ validatorSet ∧ Address v = a) ∨ m !! a = Some v) as H.
  { induction validatorSet as [|x l IH]; intros m; simpl; [by right|].
    intros [[Hin Ha]|Hm]%IH.
    - left. split; [by right|done].
    - rewrite lookup_insert in Hm. case_decide as Hx.
      + injection Hm as ->. left. split; [by left|done].
      + by right. }
  intros [?|Hm]%H; [done|]. by rewrite lookup_empty in Hm.
Qed.

Lemma newValidatorStakeMap_wf validatorSet : ledger_wf (newValidatorStakeMap validatorSet).
Proof. intros a v H. by apply newValidatorStakeMap_lookup in H as [_ ?]. Qed.

Lemma newValidatorStakeMap_consistent validatorSet :
  Forall flag_consistent validatorSet →
  ledger_consistent (newValidatorStakeMap validatorSet).
Proof.
  intros Hall a v [Hin _]%newValidatorStakeMap_lookup.
  rewrite Forall_forall in Hall. auto.
Qed.

Lemma addStake_wf sc a amt : ledger_wf sc → ledger_wf (addStake sc a amt).
Proof.
  intros Hwf b v Hb. destruct (decide (a = b)) as [<-|Hne].
  - destruct (addStake_lookup sc a amt) as (v' & Hv' & _ & _ & Ha & _).
    rewrite Hv' in Hb. injection Hb as <-. rewrite Ha.
    destruct (sc !! a) eqn:Hl; [by apply Hwf|done].
  - rewrite addStake_lookup_ne in Hb by done. by apply Hwf.
Qed.

Lemma removeStake_wf sc a amt sc' :
  removeStake sc a amt = Some sc' → ledger_wf sc → ledger_wf sc'.
Proof.
  intros Hr Hwf b v Hb. destruct (decide (a = b)) as [<-|Hne].
  - destruct (removeStake_lookup _ _ _ _ Hr) as (w & v' & Hw & Hv' & _ & _ & Ha & _).
    rewrite Hv' in Hb. injection Hb as <-. rewrite Ha. by apply Hwf.
  - rewrite (removeStake_lookup_ne _ _ _ _ _ Hr Hne) in Hb. by apply Hwf.
Qed.

Lemma addStake_consistent sc a amt :
  ledger_consistent sc → ledger_consistent (addStake sc a amt).
Proof.
  intros Hc b v Hb. destruct (decide (a = b)) as [<-|Hne].
  - destruct (addStake_lookup sc a amt) as (v' & Hv' & _ & Hf & _).
    rewrite Hv' in Hb. by injection Hb as <-.
  - rewrite addStake_lookup_ne in Hb by done. by eapply Hc.
Qed.

Lemma removeStake_consistent sc a amt sc' :
  removeStake sc a amt = Some sc' → ledger_consistent sc → ledger_consistent sc'.
Proof.
  intros Hr Hc b v Hb. destruct (decide (a = b)) as [<-|Hne].
  - destruct (removeStake_lookup _ _ _ _ Hr) as (w & v' & _ & Hv' & _ & Hf & _).
    rewrite Hv' in Hb. by injection Hb as <-.
  - rewrite (removeStake_lookup_ne _ _ _ _ _ Hr Hne) in Hb. by eapply Hc.
Qed.

(** ** Applying transfer events *)

Lemma IsStake_not_IsUnstake event : IsStake event = true → IsUnstake event = false.
Proof.
  unfold IsStake, IsUnstake. intros [H1 _]%andb_true_iff. by rewrite H1.
Qed.

Lemma applyTransferEvents_conserves sc events tr sc' :
  applyTransferEvents sc events = (tr, Some sc') →
  ∀ a, powerOf sc' a = powerOf sc a + staked a events - unstaked a events.
Proof.
  revert sc tr. induction events as [|event rest IH]; intros sc tr; simpl.
  - intros [= _ <-] a. lia.
  - destruct (IsStake event) eqn:Hs.
    + rewrite (IsStake_not_IsUnstake _ Hs). simpl.
      intros H a. rewrite (IH _ _ H a), powerOf_addStake. lia.
    + destruct (IsUnstake event) eqn:Hu; simpl.
      * destruct (removeStake sc (From event) (Value event)) as [sc1|] eqn:Hr; [|done].
        intros H a. rewrite (IH _ _ H a), (powerOf_removeStake _ _ _ _ _ Hr). lia.
      * destruct (applyTransferEvents sc rest) as [tr1 r1] eqn:Hrest.
        intros [= _ ->] a. rewrite (IH _ _ Hrest a). lia.
Qed.

Lemma applyTransferEvents_completes sc events :
  senders_known (dom sc) events →
  ∃ tr sc', applyTransferEvents sc events = (tr, Some sc').
Proof.
  revert sc. induction events as [|event rest IH]; intros sc; simpl.
  - eauto.
  - destruct (IsStake event).
    + intros H. apply IH. by rewrite addStake_dom.
    + destruct (IsUnstake event).
      * intros [Hin H].
        apply (removeStake_is_Some sc (From event) (Value event)) in Hin as [sc1 Hr].
        rewrite Hr. apply IH. by rewrite (removeStake_dom _ _ _ _ Hr).
      * intros H. destruct (IH sc H) as (tr & sc' & ->). eauto.
Qed.

Lemma applyTransferEvents_panics sc events tr :
  applyTransferEvents sc events = (tr, None) → ¬ senders_known (dom sc) events.
Proof.
  intros H Hk. destruct (applyTransferEvents_completes sc events Hk) as (? & ? & H').
  congruence.
Qed.

Lemma applyTransferEvents_wf sc events tr sc' :
  applyTransferEvents sc events = (tr, Some sc') → ledger_wf sc → ledger_wf sc'.
Proof.
  revert sc tr. induction events as [|event rest IH]; intros sc tr; simpl.
  - by intros [= _ <-].
  - destruct (IsStake event).
    + intros H Hwf. eapply IH; [exact H|]. by apply addStake_wf.
    + destruct (IsUnstake event).
      * destruct (removeStake sc (From event) (Value event)) as [sc1|] eqn:Hr; [|done].
        intros H Hwf. eapply IH; [exact H|]. by eapply removeStake_wf.
      * destruct (applyTransferEvents sc rest) as [tr1 r1] eqn:Hrest.
        intros [= _ ->] Hwf. eapply IH; eauto.
Qed.

Lemma applyTransferEvents_consistent sc events tr sc' :
  applyTransferEvents sc events = (tr, Some sc') →
  ledger_consistent sc → ledger_consistent sc'.
Proof.
  revert sc tr. induction events as [|event rest IH]; intros sc tr; simpl.
  - by intros [= _ <-].
  - destruct (IsStake event).
    + intros H Hc. eapply IH; [exact H|]. by apply addStake_consistent.
    + destruct (IsUnstake event).
      * destruct (removeStake sc (From event) (Value event)) as [sc1|] eqn:Hr; [|done].
        intros H Hc. eapply IH; [exact H|]. by eapply removeStake_consistent.
      * destruct (applyTransferEvents sc rest) as [tr1 r1] eqn:Hrest.
        intros [= _ ->] Hc. eapply IH; eauto.
Qed.

Lemma applyTransferEvents_dom sc events tr sc' :
  applyTransferEvents sc events = (tr, Some sc') → dom sc ⊆ dom sc'.
Proof.
  revert sc tr. induction events as [|event rest IH]; intros sc tr; simpl.
  - by intros [= _ <-].
  - destruct (IsStake event).
    + intros H%IH. rewrite addStake_dom in H.
      etrans; [|exact H]. apply union_subseteq_r.
    + destruct (IsUnstake event).
      * destruct (removeStake sc (From event) (Value event)) as [sc1|] eqn:Hr; [|done].
        intros H%IH. by rewrite (removeStake_dom _ _ _ _ Hr) in H.
      * destruct (applyTransferEvents sc rest) as [tr1 r1] eqn:Hrest.
        intros [= _ ->]. eapply IH; eauto.
Qed.

Lemma applyTransferEvents_touched sc events tr sc' a :
  applyTransferEvents sc events = (tr, Some sc') → touched a events → a ∈ dom sc'.
Proof.
  revert sc tr. induction events as [|event rest IH]; intros sc tr; simpl.
  - intros _ (event & Hin & _). by apply elem_of_nil in Hin.
  - intros H (ev & Hin & Hev). apply elem_of_cons in Hin as [->|Hin].
    + destruct Hev as [[Hs <-]|(Hs & Hu & <-)]; rewrite Hs in H.
      * apply applyTransferEvents_dom in H. apply H.
        rewrite addStake_dom. apply elem_of_union_l. by apply elem_of_singleton.
      * rewrite Hu in H.
        destruct (removeStake sc (From event) (Value event)) as [sc1|] eqn:Hr; [|done].
        apply applyTransferEvents_dom in H. apply H.
        rewrite (removeStake_dom _ _ _ _ Hr).
        apply (removeStake_is_Some sc (From event) (Value event)). by rewrite Hr.
    + assert (touched a rest) as Ht by (exists ev; eauto).
      destruct (IsStake event); [by eapply IH|].
      destruct (IsUnstake event).
      * destruct (removeStake sc (From event) (Value event)) as [sc1|] eqn:Hr; [|done].
        by eapply IH.
      * destruct (applyTransferEvents sc rest) as [tr1 r1] eqn:Hrest.
        injection H as _ ->. by eapply IH.
Qed.

(** ** The key-resolution loop of [updateWithReceipts] *)

Lemma resolveEntry_eq s block tr sc kv :
  resolveEntry s block (tr, sc) kv =
  (tr ++ entryEffects s block kv, <[kv.1 := resolved s kv.2]> sc).
Proof.
  destruct kv as [addr data]. unfold resolveEntry, entryEffects, resolved. simpl.
  destruct (BlsKey data); [by rewrite app_nil_r|].
  by destruct (getBlsKey s (Address data)).
Qed.

Lemma resolve_loop_eq s block l tr sc :
  foldl (resolveEntry s block) (tr, sc) l =
  (tr ++ (l ≫= entryEffects s block),
   foldl (λ m kv, <[kv.1 := resolved s kv.2]> m) sc l).
Proof.
  revert tr sc. induction l as [|kv l IH]; intros tr sc.
  - simpl. by rewrite app_nil_r.
  - change (foldl (resolveEntry s block) (tr, sc) (kv :: l))
      with (foldl (resolveEntry s block) (resolveEntry s block (tr, sc) kv) l).
    rewrite resolveEntry_eq, IH, bind_cons. by rewrite <- app_assoc.
Qed.

Lemma foldl_insert_lookup (f : ValidatorMetadata → ValidatorMetadata)
    (l : list (types_Address * ValidatorMetadata)) (m : validatorStakeMap) a :
  NoDup (fst <$> l) →
  foldl (λ m kv, <[kv.1 := f kv.2]> m) m l !! a =
  match (list_to_map l : validatorStakeMap) !! a with
  | Some d => Some (f d)
  | None => m !! a
  end.
Proof.
  revert m. induction l as [|[k d] l IH]; intros m Hnd; simpl; [done|].
  rewrite fmap_cons in Hnd. apply NoDup_cons in Hnd as [Hk Hnd].
  rewrite (IH _ Hnd). destruct (decide (k = a)) as [->|Hne].
  - rewrite !lookup_insert_eq. by rewrite (not_elem_of_list_to_map_1 _ _ Hk).
  - by rewrite !lookup_insert_ne.
Qed.

Section ResolveLoop.

Variable range_map : validatorStakeMap → list (types_Address * ValidatorMetadata).
Hypothesis range_ok : RangeOk range_map.

Lemma resolve_loop_map (s : stakeManager) (sc : validatorStakeMap) :
  foldl (λ m kv, <[kv.1 := resolved s kv.2]> m) sc (range_map sc) = resolved s <$> sc.
Proof.
  assert (NoDup (fst <$> range_map sc)) as Hnd.
  { rewrite (range_ok sc). apply NoDup_fst_map_to_list. }
  apply map_eq. intros a. rewrite foldl_insert_lookup by done.
  rewrite (list_to_map_proper _ (map_to_list sc) Hnd (range_ok sc)).
  rewrite list_to_map_to_list, lookup_fmap. by destruct (sc !! a).
Qed.

(** [updateWithReceipts] on a block that carries events, when applying them
    does not panic. *)
Lemma updateWithReceipts_events s fvs fullBlock event events tr sc :
  eventsGetter_getFromBlocks s (BlockNumber fvs) fullBlock = Some (event :: events) →
  applyTransferEvents (Validators fvs) (event :: events) = (tr, Some sc) →
  updateWithReceipts range_map s fvs fullBlock =
  (tr ++ (range_map sc ≫= entryEffects s (Block_Number fullBlock)),
   Ok {| BlockNumber := BlockNumber fvs;
         EpochID := EpochID fvs;
         UpdatedAtBlockNumber := BlockNumber fvs;
         Validators := resolved s <$> sc |}).
Proof.
  intros Hget Happly. unfold updateWithReceipts. rewrite Hget, Happly.
  by rewrite resolve_loop_eq, resolve_loop_map.
Qed.

Lemma updateWithReceipts_no_events s fvs fullBlock :
  eventsGetter_getFromBlocks s (BlockNumber fvs) fullBlock = Some [] →
  updateWithReceipts range_map s fvs fullBlock = ([], Ok fvs).
Proof. intros Hget. unfold updateWithReceipts. by rewrite Hget. Qed.

(** Whatever [updateWithReceipts] returns normally is the old ledger or the
    events applied to it followed by the recomputation of every record. *)
Lemma updateWithReceipts_Ok s fvs fullBlock tr fvs' :
  updateWithReceipts range_map s fvs fullBlock = (tr, Ok fvs') →
  fvs' = fvs ∨
  ∃ events tr1 sc,
    eventsGetter_getFromBlocks s (BlockNumber fvs) fullBlock = Some events ∧
    applyTransferEvents (Validators fvs) events = (tr1, Some sc) ∧
    Validators fvs' = resolved s <$> sc.
Proof.
  destruct (eventsGetter_getFromBlocks s (BlockNumber fvs) fullBlock)
    as [[|event events]|] eqn:Hget.
  - rewrite updateWithReceipts_no_events by done. intros [= _ <-]. by left.
  - destruct (applyTransferEvents (Validators fvs) (event :: events)) as [tr1 [sc|]] eqn:Ha.
    + rewrite (updateWithReceipts_events _ _ _ _ _ _ _ Hget Ha).
      intros [= _ <-]. right. by exists (event :: events), tr1, sc.
    + unfold updateWithReceipts. by rewrite Hget, Ha.
  - unfold updateWithReceipts. by rewrite Hget.
Qed.

End ResolveLoop.

Lemma resolved_wf s sc : ledger_wf sc → ledger_wf (resolved s <$> sc).
Proof.
  intros Hwf a v. rewrite lookup_fmap.
  destruct (sc !! a) as [w|] eqn:Hw; [|done]. intros [= <-]. simpl. by apply Hwf.
Qed.

Lemma resolved_consistent s sc : ledger_consistent (resolved s <$> sc).
Proof.
  intros a v. rewrite lookup_fmap.
  destruct (sc !! a) as [w|]; [|done]. intros [= <-].
  unfold flag_consistent. simpl. apply Cmp_Gt_bool.
Qed.

Lemma powerOf_resolved s sc a : powerOf (resolved s <$> sc) a = powerOf sc a.
Proof. unfold powerOf. rewrite lookup_fmap. by destruct (sc !! a). Qed.

(** ** The removal bitmap *)

Lemma land_bit_is_zero x k :
  0 ≤ k → (Z.land x (Z.shiftl 1 k) =? 0) = negb (Z.testbit x k).
Proof.
  intros Hk. rewrite Z.shiftl_1_l.
  destruct (Z.testbit x k) eqn:Hb; simpl.
  - apply Z.eqb_neq. intros H0.
    assert (Z.testbit (Z.land x (2 ^ k)) k = true) as Ht.
    { rewrite Z.land_spec, Hb, Z.pow2_bits_eqb by done. by rewrite Z.eqb_refl. }
    rewrite H0, Z.bits_0 in Ht. done.
  - apply Z.eqb_eq. apply Z.bits_inj'. intros n Hn.
    rewrite Z.land_spec, Z.bits_0, Z.pow2_bits_eqb by done.
    destruct (Z.eqb_spec k n) as [<-|_]; [by rewrite Hb|by rewrite andb_false_r].
Qed.

Lemma Bitmap_IsSet_bit b idx : 0 ≤ idx → Bitmap_IsSet b idx = Bitmap_bit b idx.
Proof.
  intros Hidx. unfold Bitmap_IsSet, Bitmap_bit, Bitmap_Len.
  assert (0 ≤ idx mod 8) by (apply Z.mod_pos_bound; lia).
  destruct (Z.leb_spec (8 * Z.of_nat (length b)) idx) as [Hle|Hlt].
  - rewrite nth_overflow; [by rewrite Z.bits_0|].
    assert (Z.of_nat (length b) ≤ idx / 8) by (apply Z.div_le_lower_bound; lia). lia.
  - rewrite land_bit_is_zero by done. by rewrite negb_involutive.
Qed.

Lemma nth_extendByteSlice b needLen k : nth k (extendByteSlice b needLen) 0 = nth k b 0.
Proof.
  unfold extendByteSlice. rewrite !nth_lookup.
  destruct (decide (k < length b)%nat) as [Hlt|Hge].
  - by rewrite lookup_app_l.
  - rewrite lookup_app_r by lia. rewrite (lookup_ge_None_2 b k) by lia. simpl.
    destruct (replicate (needLen - length b) 0 !! (k - length b)%nat) as [z|] eqn:Hz; [|done].
    by apply lookup_replicate in Hz as [-> _].
Qed.

Lemma nth_Bitmap_Set b idx k :
  nth k (Bitmap_Set b idx) 0 =
  if decide (k = Z.to_nat (idx / 8))
  then Z.lor (nth k b 0) (Z.shiftl 1 (idx mod 8))
  else nth k b 0.
Proof.
  unfold Bitmap_Set. rewrite nth_lookup. case_decide as Hk.
  - subst k. rewrite list_lookup_alter_eq.
    rewrite <- (nth_extendByteSlice b (Z.to_nat (idx / 8) + 1)), nth_lookup.
    destruct (extendByteSlice b (Z.to_nat (idx / 8) + 1) !! Z.to_nat (idx / 8)) eqn:Hl; [done|].
    apply lookup_ge_None_1 in Hl. unfold extendByteSlice in Hl.
    rewrite length_app, length_replicate in Hl. lia.
  - rewrite list_lookup_alter_ne by done.
    by rewrite <- nth_lookup, nth_extendByteSlice.
Qed.

Lemma Bitmap_bit_Set b i j :
  0 ≤ i → 0 ≤ j → Bitmap_bit (Bitmap_Set b i) j = (i =? j) || Bitmap_bit b j.
Proof.
  intros Hi Hj. unfold Bitmap_bit. rewrite nth_Bitmap_Set.
  assert (0 ≤ i mod 8 < 8) by (apply Z.mod_pos_bound; lia).
  assert (0 ≤ j mod 8 < 8) by (apply Z.mod_pos_bound; lia).
  assert (0 ≤ i / 8) by (apply Z.div_pos; lia).
  assert (0 ≤ j / 8) by (apply Z.div_pos; lia).
  pose proof (Z.div_mod i 8 ltac:(lia)) as Hdi.
  pose proof (Z.div_mod j 8 ltac:(lia)) as Hdj.
  case_decide as Hk.
  - rewrite Z.lor_spec, Z.shiftl_1_l, Z.pow2_bits_eqb by lia.
    rewrite orb_comm. f_equal.
    destruct (Z.eqb_spec (i mod 8) (j mod 8)), (Z.eqb_spec i j); try done; lia.
  - destruct (Z.eqb_spec i j) as [->|_]; [done|]. done.
Qed.

(** Setting a position sets that bit and no other. *)
Lemma Bitmap_IsSet_Set b i j :
  0 ≤ i → 0 ≤ j → Bitmap_IsSet (Bitmap_Set b i) j = (i =? j) || Bitmap_IsSet b j.
Proof.
  intros Hi Hj. rewrite !Bitmap_IsSet_bit by done. by apply Bitmap_bit_Set.
Qed.

Lemma Bitmap_IsSet_empty j : Bitmap_IsSet [] j = false.
Proof.
  unfold Bitmap_IsSet. destruct (Bitmap_Len [] <=? j); [done|].
  assert (nth (Z.to_nat (j / 8)) ([] : Bitmap) 0 = 0) as -> by by destruct (Z.to_nat (j / 8)).
  by rewrite Z.land_0_l.
Qed.

(** ** The loops of [UpdateValidatorSet] *)

Lemma elem_of_addressesSet_of newValidatorSet a :
  a ∈ addressesSet_of newValidatorSet ↔ a ∈ Address <$> newValidatorSet.
Proof.
  unfold addressesSet_of.
  assert (∀ acc : gset types_Address,
    a ∈ foldl (λ addressesSet si, {[Address si]} ∪ addressesSet) acc newValidatorSet ↔
    a ∈ acc ∨ a ∈ Address <$> newValidatorSet) as H.
  { induction newValidatorSet as [|v l IH]; intros acc; simpl.
    - rewrite elem_of_nil. tauto.
    - rewrite IH, elem_of_union, elem_of_singleton, elem_of_cons. tauto. }
  rewrite H, elem_of_empty. tauto.
Qed.

Lemma scanOldValidatorSet_map addressesSet i oldValidatorSet m bm a :
  (scanOldValidatorSet addressesSet i oldValidatorSet (m, bm)).1 !! a = None ↔
  m !! a = None ∧ a ∉ Address <$> oldValidatorSet.
Proof.
  revert i m bm. induction oldValidatorSet as [|v l IH]; intros i m bm; simpl.
  - rewrite elem_of_nil. tauto.
  - rewrite IH, lookup_insert_None, not_elem_of_cons. split.
    + intros [[? ?] ?]. split; [done|]. split; [congruence|done].
    + intros [? [? ?]]. split; [|done]. split; [done|congruence].
Qed.

Lemma scanOldValidatorSet_bitmap addressesSet i oldValidatorSet m bm j :
  0 ≤ i → 0 ≤ j →
  Bitmap_IsSet (scanOldValidatorSet addressesSet i oldValidatorSet (m, bm)).2 j = true ↔
  Bitmap_IsSet bm j = true ∨
  ∃ (k : nat) v, oldValidatorSet !! k = Some v ∧ j = i + Z.of_nat k ∧
                 Address v ∉ addressesSet.
Proof.
  revert i m bm. induction oldValidatorSet as [|v l IH]; intros i m bm Hi Hj; simpl.
  - split; [by left|]. intros [?|(k & v & Hl & _)]; [done|]. by rewrite lookup_nil in Hl.
  - rewrite IH by lia. case_decide as Hin.
    + split.
      * intros [?|(k & w & Hl & -> & Hw)]; [by left|].
        right. exists (S k), w. split; [done|]. split; [lia|done].
      * intros [?|(k & w & Hl & -> & Hw)]; [by left|].
        destruct k as [|k]; simpl in Hl.
        -- injection Hl as <-. done.
        -- right. exists k, w. split; [done|]. split; [lia|done].
    + rewrite Bitmap_IsSet_Set by lia. rewrite orb_true_iff, Z.eqb_eq. split.
      * intros [[->|?]|(k & w & Hl & -> & Hw)].
        -- right. exists 0%nat, v. split; [done|]. split; [lia|done].
        -- by left.
        -- right. exists (S k), w. split; [done|]. split; [lia|done].
      * intros [?|(k & w & Hl & -> & Hw)]; [left; by right|].
        destruct k as [|k]; simpl in Hl.
        -- left. left. lia.
        -- right. exists k, w. split; [done|]. split; [lia|done].
Qed.

Lemma diffNewValidatorSet_no_panic s oldActiveMap newValidatorSet updated added :
  diffNewValidatorSet s oldActiveMap newValidatorSet updated added ≠ Panic.
Proof.
  revert updated added.
  induction newValidatorSet as [|v l IH]; intros updated added; simpl; [done|].
  destruct (oldActiveMap !! Address v) as [w|].
  - destruct (Cmp (VotingPower w) (VotingPower v)); apply IH.
  - destruct (BlsKey v); [apply IH|].
    destruct (getBlsKey s (Address v)); [apply IH|done].
Qed.

(** One unresolvable newcomer anywhere in the new set fails the loop. *)
Lemma diffNewValidatorSet_unresolvable s oldActiveMap newValidatorSet updated added v :
  v ∈ newValidatorSet →
  oldActiveMap !! Address v = None →
  BlsKey v = None →
  getBlsKey s (Address v) = None →
  ∃ addr, diffNewValidatorSet s oldActiveMap newValidatorSet updated added =
          Err (errCouldNotRetrieveValidatorData addr).
Proof.
  intros Hin Hold Hkey Hget. revert updated added.
  induction newValidatorSet as [|x l IH]; intros updated added; [by apply elem_of_nil in Hin|].
  simpl. apply elem_of_cons in Hin as [<-|Hin].
  - rewrite Hold, Hkey, Hget. eauto.
  - destruct (oldActiveMap !! Address x) as [w|].
    + destruct (Cmp (VotingPower w) (VotingPower x)); by apply IH.
    + destruct (BlsKey x); [by apply IH|].
      destruct (getBlsKey s (Address x)); [by apply IH|eauto].
Qed.

(** Every record the loop appends to [added] carries a key. *)
Lemma diffNewValidatorSet_added_keys s oldActiveMap newValidatorSet updated added updated' added' :
  diffNewValidatorSet s oldActiveMap newValidatorSet updated added = Ok (updated', added') →
  Forall (λ v, is_Some (BlsKey v)) added →
  Forall (λ v, is_Some (BlsKey v)) added'.
Proof.
  revert updated added.
  induction newValidatorSet as [|x l IH]; intros updated added; simpl.
  - by intros [= _ <-].
  - destruct (oldActiveMap !! Address x) as [w|].
    + destruct (Cmp (VotingPower w) (VotingPower x)); apply IH.
    + destruct (BlsKey x) as [k|] eqn:Hk.
      * intros H Ha. eapply IH; [exact H|].
        apply Forall_app. split; [done|]. constructor; [|done]. by rewrite Hk.
      * destruct (getBlsKey s (Address x)) as [k|]; [|done].
        intros H Ha. eapply IH; [exact H|].
        apply Forall_app. split; [done|]. constructor; [|done]. by eexists.
Qed.

Section SelectorFacts.

Variable range_map : validatorStakeMap → list (types_Address * ValidatorMetadata).
Variable ApplyDelta : AccountSet → ValidatorSetDelta → option AccountSet.

(** What a returned delta is made of. *)
Lemma UpdateValidatorSet_Ok s st epoch maxValidatorSetSize oldValidatorSet delta :
  UpdateValidatorSet range_map ApplyDelta s st epoch maxValidatorSetSize oldValidatorSet
    = Ok delta →
  ∃ fvs newValidatorSet oldActiveMap,
    fullValidatorSet st = Some fvs ∧
    getSorted range_map (Validators fvs) (int_of_uint64 maxValidatorSetSize)
      = Some newValidatorSet ∧
    scanOldValidatorSet (addressesSet_of newValidatorSet) 0 oldValidatorSet (∅, [])
      = (oldActiveMap, Removed delta) ∧
    diffNewValidatorSet s oldActiveMap newValidatorSet [] []
      = Ok (Updated delta, Added delta).
Proof.
  unfold UpdateValidatorSet, getFullValidatorSet.
  destruct (fullValidatorSet st) as [fvs|]; [|done].
  destruct (getSorted range_map (Validators fvs) (int_of_uint64 maxValidatorSetSize))
    as [newValidatorSet|] eqn:Hsorted; [|done].
  destruct (scanOldValidatorSet _ 0 oldValidatorSet (∅, [])) as [oldActiveMap removedBitmap] eqn:Hscan.
  destruct (diffNewValidatorSet s oldActiveMap newValidatorSet [] [])
    as [[updated added]| |] eqn:Hdiff; [|done|done].
  intros H. exists fvs, newValidatorSet, oldActiveMap.
  assert (delta = {| Added := added; Updated := updated; Removed := removedBitmap |}) as ->.
  { destruct (logger_IsDebug s); [|congruence].
    destruct (ApplyDelta oldValidatorSet _); congruence. }
  simpl. repeat split; assumption.
Qed.

(** The outcome of [UpdateValidatorSet] is a function of the slice
    [getSorted] hands it: two enumerations that make [getSorted] agree make
    the whole call agree. *)
Lemma UpdateValidatorSet_ext range_map' s st epoch maxValidatorSetSize oldValidatorSet :
  (∀ fvs, fullValidatorSet st = Some fvs →
     getSorted range_map (Validators fvs) (int_of_uint64 maxValidatorSetSize) =
     getSorted range_map' (Validators fvs) (int_of_uint64 maxValidatorSetSize)) →
  UpdateValidatorSet range_map ApplyDelta s st epoch maxValidatorSetSize oldValidatorSet =
  UpdateValidatorSet range_map' ApplyDelta s st epoch maxValidatorSetSize oldValidatorSet.
Proof.
  intros H. unfold UpdateValidatorSet, getFullValidatorSet.
  destruct (fullValidatorSet st) as [fvs|]; [|done].
  by rewrite (H fvs eq_refl).
Qed.

End SelectorFacts.

(** ** Selection: what [getSorted] returns *)

Lemma not_after_no_later l : StronglySorted not_after l → StronglySorted no_later l.
Proof.
  induction 1 as [|x l Hl IH Hx]; constructor; [done|].
  eapply Forall_impl; [exact Hx|].
  intros y Hy Hp. apply less_precedes in Hp. unfold not_after in Hy. congruence.
Qed.

Lemma StronglySorted_precedes_NoDup l : StronglySorted precedes l → NoDup l.
Proof.
  induction 1 as [|x l Hl IH Hx]; constructor; [|done].
  intros Hin. rewrite Forall_forall in Hx.
  eapply precedes_asym; by apply Hx.
Qed.

(** The specification's selection is a function of the ledger. *)
Lemma is_selection_unique sc maxSize res1 res2 :
  is_selection sc maxSize res1 → is_selection sc maxSize res2 → res1 = res2.
Proof.
  intros (s1 & Hm1 & Hs1 & ->) (s2 & Hm2 & Hs2 & ->). f_equal.
  apply sorted_perm_unique; [done|done|].
  apply NoDup_Permutation; try by apply StronglySorted_precedes_NoDup.
  intros v. by rewrite Hm1, Hm2.
Qed.

Section Selection.

Variable range_map : validatorStakeMap → list (types_Address * ValidatorMetadata).
Hypothesis range_ok : RangeOk range_map.

Lemma getSorted_is_selection sc n :
  ledger_wf sc → 0 ≤ n →
  ∃ res, getSorted range_map sc n = Some res ∧ is_selection sc (Z.to_nat n) res.
Proof.
  intros Hwf Hn. eexists. split; [by apply getSorted_nonneg|].
  exists (sort_Slice less (activeValidators_of range_map sc)).
  split; [|split; [by apply sorted_active_strict|done]].
  intros v. rewrite sort_Slice_perm. by apply elem_of_activeValidators.
Qed.

(** Any strictly ordered list of the positive entries is the slice
    [getSorted] holds before cutting. *)
Lemma sorted_active_unique sc s :
  ledger_wf sc →
  StronglySorted precedes s →
  (∀ v, v ∈ s ↔ ∃ a, sc !! a = Some v ∧ 0 < VotingPower v) →
  sort_Slice less (activeValidators_of range_map sc) = s.
Proof.
  intros Hwf Hs Hm. apply sorted_perm_unique; [by apply sorted_active_strict|done|].
  apply NoDup_Permutation.
  - by apply StronglySorted_precedes_NoDup, sorted_active_strict.
  - by apply StronglySorted_precedes_NoDup.
  - intros v. rewrite sort_Slice_perm, Hm. by apply elem_of_activeValidators.
Qed.

End Selection.

(** ** The scenario: top two of {A:10, B:10, C:5} *)

Lemma foldl_addStake_wf order sc :
  ledger_wf sc → ledger_wf (foldl (λ sc ap, addStake sc ap.1 ap.2) sc order).
Proof.
  revert sc. induction order as [|[a p] l IH]; intros sc Hwf; simpl; [done|].
  by apply IH, addStake_wf.
Qed.

Lemma ledger_empty_wf : ledger_wf ∅.
Proof. intros a v H. by rewrite lookup_empty in H. Qed.

Lemma ledger_of_stakes_wf order : ledger_wf (ledger_of_stakes order).
Proof. apply foldl_addStake_wf, ledger_empty_wf. Qed.

Lemma foldl_addStake_lookup (order : list (types_Address * Z)) (sc : validatorStakeMap) a :
  NoDup (fst <$> order) →
  (∀ k, k ∈ fst <$> order → sc !! k = None) →
  foldl (λ sc ap, addStake sc ap.1 ap.2) sc order !! a =
  match (list_to_map order : gmap types_Address Z) !! a with
  | Some p => Some (staker a p)
  | None => sc !! a
  end.
Proof.
  revert sc. induction order as [|[k p] l IH]; intros sc Hnd Hfresh; simpl; [done|].
  rewrite fmap_cons in Hnd. apply NoDup_cons in Hnd as [Hk Hnd].
  assert (addStake sc k p = <[k := staker k p]> sc) as ->.
  { unfold addStake. rewrite (Hfresh k); [done|]. rewrite fmap_cons. by left. }
  rewrite IH; [|done|].
  - destruct (decide (k = a)) as [->|Hne].
    + rewrite !lookup_insert_eq. by rewrite (not_elem_of_list_to_map_1 _ _ Hk).
    + by rewrite !lookup_insert_ne.
  - intros k' Hk'. rewrite lookup_insert_ne by (intros ->; done).
    apply Hfresh. rewrite fmap_cons. by right.
Qed.

(** Staking distinct addresses yields the same ledger in any order. *)
Lemma ledger_of_stakes_perm order1 order2 :
  NoDup (fst <$> order1) → order1 ≡ₚ order2 →
  ledger_of_stakes order1 = ledger_of_stakes order2.
Proof.
  intros Hnd Hp. apply map_eq. intros a. unfold ledger_of_stakes.
  assert (NoDup (fst <$> order2)) as Hnd2 by by rewrite <- Hp.
  rewrite !foldl_addStake_lookup by (done || intros; apply lookup_empty).
  by rewrite (list_to_map_proper _ _ Hnd Hp).
Qed.

Lemma scenario_top_two range_map A B C order :
  RangeOk range_map →
  lex_lt A B → C ≠ A → C ≠ B →
  order ≡ₚ [(A, 10); (B, 10); (C, 5)] →
  getSorted range_map (ledger_of_stakes order) (int_of_uint64 2) =
  Some [staker A 10; staker B 10].
Proof.
  intros Hr HAB HCA HCB Hp.
  assert (A ≠ B) as HneAB by (intros ->; by apply lex_lt_irrefl in HAB).
  assert (NoDup (fst <$> [(A, 10); (B, 10); (C, 5)])) as Hnd.
  { simpl. apply NoDup_cons. split.
    - rewrite !not_elem_of_cons. repeat split; (congruence || apply not_elem_of_nil).
    - apply NoDup_cons. split; [|apply NoDup_singleton].
      rewrite !not_elem_of_cons. repeat split; (congruence || apply not_elem_of_nil). }
  rewrite (ledger_of_stakes_perm order [(A, 10); (B, 10); (C, 5)]);
    [|by rewrite Hp|done].
  rewrite int_of_uint64_small by lia.
  rewrite getSorted_nonneg by (done || lia).
  rewrite (sorted_active_unique range_map Hr _ [staker A 10; staker B 10; staker C 5]).
  - done.
  - apply ledger_of_stakes_wf.
  - assert (precedes (staker A 10) (staker B 10)) by (right; by split).
    assert (precedes (staker A 10) (staker C 5)) by (left; simpl; lia).
    assert (precedes (staker B 10) (staker C 5)) by (left; simpl; lia).
    apply SSorted_cons; [apply SSorted_cons; [apply SSorted_cons; [apply SSorted_nil|]|]|];
      repeat first [apply List.Forall_cons; [assumption|] | apply List.Forall_nil].
  - intros v. unfold ledger_of_stakes. split.
    + rewrite !elem_of_cons, elem_of_nil. intros [->|[->|[->|[]]]].
      * exists A. rewrite foldl_addStake_lookup by (done || intros; apply lookup_empty).
        simpl. rewrite lookup_insert_eq. by split.
      * exists B. rewrite foldl_addStake_lookup by (done || intros; apply lookup_empty).
        simpl. rewrite lookup_insert_ne, lookup_insert_eq by done. by split.
      * exists C. rewrite foldl_addStake_lookup by (done || intros; apply lookup_empty).
        simpl. rewrite !lookup_insert_ne, lookup_insert_eq by done. by split.
    + intros (a & Hl & _).
      rewrite foldl_addStake_lookup in Hl by (done || intros; apply lookup_empty).
      simpl in Hl. rewrite !elem_of_cons.
      destruct (decide (A = a)) as [<-|?];
        [rewrite lookup_insert_eq in Hl; left; congruence|rewrite lookup_insert_ne in Hl by done].
      destruct (decide (B = a)) as [<-|?];
        [rewrite lookup_insert_eq in Hl; right; left; congruence|rewrite lookup_insert_ne in Hl by done].
      destruct (decide (C = a)) as [<-|?];
        [rewrite lookup_insert_eq in Hl; right; right; left; congruence|rewrite lookup_insert_ne in Hl by done].
      by rewrite lookup_empty in Hl.
Qed.

Example scenario_ledger_selection :
  getSorted range_reversed scenario_ledger 2 = Some [staker addrA 10; staker addrB 10].
Proof. vm_compute. reflexivity. Qed.

Example scenario_enumerations_differ :
  range_canonical scenario_ledger ≠ range_reversed scenario_ledger.
Proof. vm_compute. discriminate. Qed.

(** ** C1: selection *)

(** A maximum size of 2^63 or more turns negative under [int(...)], and the
    slice expression of [getSorted] panics on it whatever the ledger holds. *)
Lemma UpdateValidatorSet_size_beyond_int
    range_map ApplyDelta s st fvs epoch maxValidatorSetSize oldValidatorSet :
  fullValidatorSet st = Some fvs →
  2 ^ 63 ≤ maxValidatorSetSize < 2 ^ 64 →
  UpdateValidatorSet range_map ApplyDelta s st epoch maxValidatorSetSize oldValidatorSet
    = Panic.
Proof.
  intros Hst Hmax. unfold UpdateValidatorSet, getFullValidatorSet. rewrite Hst.
  rewrite getSorted_negative; [done|].
  rewrite int_of_uint64_large by done. lia.
Qed.

(** C1, as stated, fails when the maximum set size does not fit a Go [int]:
    [UpdateValidatorSet] converts the [uint64] with [int(...)], 2^63 becomes
    negative, and [activeValidators[:maxValidatorSetSize]] panics instead of
    returning the one positive entry of the ledger. *)
Lemma C1_counterexample_size_beyond_int :
  getSorted range_canonical (ledger_of_stakes [(addrA, 10)]) (int_of_uint64 (2 ^ 63)) = None ∧
  UpdateValidatorSet range_canonical ApplyDelta_ok quiet_manager
    (store_of (ledger_of_stakes [(addrA, 10)])) 1 (2 ^ 63) [] = Panic.
Proof. split; vm_compute; reflexivity. Qed.

(** C1 (amended): for every ledger, every enumeration order of the map and
    every maximum set size below 2^63, the slice [UpdateValidatorSet] obtains
    from [getSorted] holds exactly the entries with voting power > 0, in
    descending order of voting power with ties broken by ascending address
    bytes, cut to the first [maxValidatorSetSize]; and the top 2 of
    {A:10, B:10, C:5} with A's address before B's is [A, B] whatever the order
    in which the three were staked. *)
Theorem C1_selection_filters_sorts_truncates range_map sc maxValidatorSetSize :
  RangeOk range_map →
  ledger_wf sc →
  0 ≤ maxValidatorSetSize < 2 ^ 63 →
  (∃ res, getSorted range_map sc (int_of_uint64 maxValidatorSetSize) = Some res ∧
          is_selection sc (Z.to_nat maxValidatorSetSize) res) ∧
  (∀ A B C order,
     lex_lt A B → C ≠ A → C ≠ B →
     order ≡ₚ [(A, 10); (B, 10); (C, 5)] →
     getSorted range_map (ledger_of_stakes order) (int_of_uint64 2) =
     Some [staker A 10; staker B 10]).
Proof.
  intros Hr Hwf Hmax. split.
  - rewrite int_of_uint64_small by done. apply getSorted_is_selection; [done|done|lia].
  - intros A B C order. by apply scenario_top_two.
Qed.

Lemma C1_witness_scenario_ledger :
  (∃ res, getSorted range_reversed scenario_ledger (int_of_uint64 2) = Some res ∧
          is_selection scenario_ledger (Z.to_nat 2) res) ∧
  (∀ A B C order,
     lex_lt A B → C ≠ A → C ≠ B →
     order ≡ₚ [(A, 10); (B, 10); (C, 5)] →
     getSorted range_reversed (ledger_of_stakes order) (int_of_uint64 2) =
     Some [staker A 10; staker B 10]).
Proof.
  apply (C1_selection_filters_sorts_truncates range_reversed scenario_ledger 2).
  - apply range_reversed_ok.
  - apply ledger_of_stakes_wf.
  - lia.
Defined.

(** ** C2: the removal bitmap *)

Example example_delta_computed :
  UpdateValidatorSet range_reversed ApplyDelta_ok keyed_manager
    (store_of scenario_ledger) 1 2 example_old_set = Ok example_delta.
Proof. vm_compute. reflexivity. Qed.

(** C2: in a delta returned by [UpdateValidatorSet], for every position [i]
    of the previous ordered set, removed bit [i] is set if and only if the
    address at position [i] is absent from the addresses of the new active
    set (the slice [getSorted] returned); no bit beyond the previous set is
    set. *)
Theorem C2_removed_bit_iff_absent
    range_map ApplyDelta s st epoch maxValidatorSetSize oldValidatorSet delta :
  UpdateValidatorSet range_map ApplyDelta s st epoch maxValidatorSetSize oldValidatorSet
    = Ok delta →
  ∃ fvs newValidatorSet,
    fullValidatorSet st = Some fvs ∧
    getSorted range_map (Validators fvs) (int_of_uint64 maxValidatorSetSize)
      = Some newValidatorSet ∧
    (∀ (i : nat) v, oldValidatorSet !! i = Some v →
       (Bitmap_IsSet (Removed delta) (Z.of_nat i) = true ↔
        Address v ∉ Address <$> newValidatorSet)) ∧
    (∀ j, 0 ≤ j → Bitmap_IsSet (Removed delta) j = true →
       j < Z.of_nat (length oldValidatorSet)).
Proof.
  intros (fvs & newValidatorSet & oldActiveMap & Hst & Hsorted & Hscan & _)%UpdateValidatorSet_Ok.
  exists fvs, newValidatorSet. split; [done|]. split; [done|].
  assert (Removed delta =
    (scanOldValidatorSet (addressesSet_of newValidatorSet) 0 oldValidatorSet (∅, [])).2) as ->
    by by rewrite Hscan.
  split.
  - intros i v Hi.
    rewrite scanOldValidatorSet_bitmap by lia.
    rewrite Bitmap_IsSet_empty. split.
    + intros [?|(k & w & Hk & Hik & Hw)]; [done|].
      assert (k = i) as -> by lia. rewrite Hi in Hk. injection Hk as <-.
      by rewrite <- elem_of_addressesSet_of.
    + intros Hv. right. exists i, v. split; [done|]. split; [lia|].
      by rewrite elem_of_addressesSet_of.
  - intros j Hj. rewrite scanOldValidatorSet_bitmap by lia.
    rewrite Bitmap_IsSet_empty. intros [?|(k & w & Hk & -> & _)]; [done|].
    apply lookup_lt_Some in Hk. lia.
Qed.

Lemma C2_witness_example_delta :
  ∃ fvs newValidatorSet,
    fullValidatorSet (store_of scenario_ledger) = Some fvs ∧
    getSorted range_reversed (Validators fvs) (int_of_uint64 2) = Some newValidatorSet ∧
    (∀ (i : nat) v, example_old_set !! i = Some v →
       (Bitmap_IsSet (Removed example_delta) (Z.of_nat i) = true ↔
        Address v ∉ Address <$> newValidatorSet)) ∧
    (∀ j, 0 ≤ j → Bitmap_IsSet (Removed example_delta) j = true →
       j < Z.of_nat (length example_old_set)).
Proof.
  apply (C2_removed_bit_iff_absent range_reversed ApplyDelta_ok keyed_manager
           (store_of scenario_ledger) 1 2 example_old_set example_delta).
  vm_compute. reflexivity.
Defined.

(** ** C3: determinism *)

Lemma store_of_wf sc : ledger_wf sc → store_wf (store_of sc).
Proof. intros Hwf fvs [= <-]. done. Qed.

(** C3: for a fixed ledger state, previous set, epoch and maximum size (and
    fixed answers of the collaborators), two invocations of
    [UpdateValidatorSet] under any two enumeration orders of the validator
    map have the same outcome: the same delta, with added, updated and
    removed equal as ordered data, or the same failure. *)
Theorem C3_UpdateValidatorSet_deterministic
    range_map1 range_map2 ApplyDelta s st epoch maxValidatorSetSize oldValidatorSet :
  RangeOk range_map1 →
  RangeOk range_map2 →
  store_wf st →
  UpdateValidatorSet range_map1 ApplyDelta s st epoch maxValidatorSetSize oldValidatorSet =
  UpdateValidatorSet range_map2 ApplyDelta s st epoch maxValidatorSetSize oldValidatorSet.
Proof.
  intros H1 H2 Hwf. apply UpdateValidatorSet_ext. intros fvs Hfvs.
  rewrite (getSorted_canonical range_map1 H1) by by apply Hwf.
  rewrite (getSorted_canonical range_map2 H2) by by apply Hwf.
  done.
Qed.

Lemma C3_witness_two_enumerations :
  UpdateValidatorSet range_canonical ApplyDelta_ok keyed_manager
    (store_of scenario_ledger) 1 2 example_old_set =
  UpdateValidatorSet range_reversed ApplyDelta_ok keyed_manager
    (store_of scenario_ledger) 1 2 example_old_set.
Proof.
  apply (C3_UpdateValidatorSet_deterministic range_canonical range_reversed).
  - apply range_canonical_ok.
  - apply range_reversed_ok.
  - apply store_of_wf, ledger_of_stakes_wf.
Defined.

(** ** C6: an unresolvable newcomer aborts the selection *)

(** C6: [UpdateValidatorSet] returns an error, and so no delta, whenever
    some validator of the new set that is absent from the previous set has no
    stored signing key and the root-chain lookup for it fails; and every
    entry of [Added] in a returned delta carries a key. *)
Theorem C6_unresolvable_key_aborts
    range_map ApplyDelta s st epoch maxValidatorSetSize oldValidatorSet :
  (∀ fvs newValidatorSet v,
     fullValidatorSet st = Some fvs →
     getSorted range_map (Validators fvs) (int_of_uint64 maxValidatorSetSize)
       = Some newValidatorSet →
     v ∈ newValidatorSet →
     Address v ∉ Address <$> oldValidatorSet →
     BlsKey v = None →
     getBlsKey s (Address v) = None →
     ∃ e, UpdateValidatorSet range_map ApplyDelta s st epoch maxValidatorSetSize
            oldValidatorSet = Err e) ∧
  (∀ delta,
     UpdateValidatorSet range_map ApplyDelta s st epoch maxValidatorSetSize oldValidatorSet
       = Ok delta →
     Forall (λ v, is_Some (BlsKey v)) (Added delta)).
Proof.
  split.
  - intros fvs newValidatorSet v Hst Hsorted Hin Hnew Hkey Hget.
    unfold UpdateValidatorSet, getFullValidatorSet. rewrite Hst, Hsorted.
    destruct (scanOldValidatorSet (addressesSet_of newValidatorSet) 0 oldValidatorSet (∅, []))
      as [oldActiveMap removedBitmap] eqn:Hscan.
    assert (oldActiveMap !! Address v = None) as Hold.
    { replace oldActiveMap with
        (scanOldValidatorSet (addressesSet_of newValidatorSet) 0 oldValidatorSet (∅, [])).1
        by by rewrite Hscan.
      apply scanOldValidatorSet_map. split; [apply lookup_empty|done]. }
    destruct (diffNewValidatorSet_unresolvable s oldActiveMap newValidatorSet [] [] v
                Hin Hold Hkey Hget) as [a ->].
    eauto.
  - intros delta (fvs & newValidatorSet & oldActiveMap & _ & _ & _ & Hdiff)%UpdateValidatorSet_Ok.
    eapply diffNewValidatorSet_added_keys; [exact Hdiff|constructor].
Qed.

(** A run of C6: B would join, has no stored key, and the root chain of
    [quiet_manager] holds none. *)
Example unresolvable_newcomer_aborts :
  UpdateValidatorSet range_reversed ApplyDelta_ok quiet_manager
    (store_of scenario_ledger) 1 2 example_old_set =
  Err (errCouldNotRetrieveValidatorData addrB).
Proof. vm_compute. reflexivity. Qed.

(** ** C10: [GetAllValidators] lists the positive entries only *)

Example zeroed_entry_stays_stored :
  ledger_with_zeroed_entry !! addrA =
  Some {| Address := addrA; BlsKey := None; VotingPower := 0; IsActive := false |}.
Proof. vm_compute. reflexivity. Qed.

Example zeroed_entry_not_listed :
  GetAllValidators range_canonical (store_of ledger_with_zeroed_entry) =
  Ok [staker addrB 4].
Proof. vm_compute. reflexivity. Qed.

(** C10: [GetAllValidators] returns exactly the ledger entries with strictly
    positive voting power, in descending order of power with ties broken by
    ascending address; an entry whose power is zero (or below) is left out of
    the result although it is stored in the ledger. *)
Theorem C10_GetAllValidators_only_positive range_map st fvs :
  RangeOk range_map →
  fullValidatorSet st = Some fvs →
  ∃ res,
    GetAllValidators range_map st = Ok res ∧
    res ≡ₚ filter (λ v, 0 < VotingPower v) (snd <$> map_to_list (Validators fvs)) ∧
    StronglySorted no_later res ∧
    (ledger_wf (Validators fvs) → StronglySorted precedes res) ∧
    (∀ a v, Validators fvs !! a = Some v → VotingPower v ≤ 0 → v ∉ res).
Proof.
  intros Hr Hst.
  exists (sort_Slice less (activeValidators_of range_map (Validators fvs))).
  split; [|split; [|split; [|split]]].
  - unfold GetAllValidators, getFullValidatorSet. rewrite Hst.
    rewrite getSorted_nonneg by lia. rewrite take_ge; [done|].
    rewrite sort_Slice_perm. rewrite Nat2Z.id. by apply activeValidators_length.
  - rewrite sort_Slice_perm, (activeValidators_canonical range_map Hr).
    unfold activeValidators_of, range_canonical.
    erewrite list_filter_iff; [done|]. intros v. apply Cmp_Gt.
  - apply not_after_no_later, sort_Slice_sorted.
  - intros Hwf. by apply sorted_active_strict.
  - intros a v Hv Hp. rewrite sort_Slice_perm, (elem_of_activeValidators range_map Hr).
    intros (a' & _ & Hpos). lia.
Qed.

Lemma C10_witness_zeroed_entry :
  ∃ res,
    GetAllValidators range_reversed (store_of ledger_with_zeroed_entry) = Ok res ∧
    res ≡ₚ filter (λ v, 0 < VotingPower v)
             (snd <$> map_to_list
                (Validators {| BlockNumber := 0; EpochID := 0; UpdatedAtBlockNumber := 0;
                               Validators := ledger_with_zeroed_entry |})) ∧
    StronglySorted no_later res ∧
    (ledger_wf (Validators {| BlockNumber := 0; EpochID := 0; UpdatedAtBlockNumber := 0;
                              Validators := ledger_with_zeroed_entry |}) →
     StronglySorted precedes res) ∧
    (∀ a v, Validators {| BlockNumber := 0; EpochID := 0; UpdatedAtBlockNumber := 0;
                          Validators := ledger_with_zeroed_entry |} !! a = Some v →
            VotingPower v ≤ 0 → v ∉ res).
Proof.
  apply (C10_GetAllValidators_only_positive range_reversed (store_of ledger_with_zeroed_entry)).
  - apply range_reversed_ok.
  - reflexivity.
Defined.

(** ** C8: [removeStake] below zero *)

(** C8: [removeStake] subtracts exactly and without a guard: when the
    recorded stake is [p] and the unstake amount [a] exceeds it, the stored
    power becomes the negative [p - a] and the record turns inactive; the
    call returns normally and nothing else in the ledger changes. *)
Theorem C8_removeStake_goes_negative sc address w p a :
  sc !! address = Some w →
  VotingPower w = p →
  p < a →
  ∃ v, removeStake sc address a = Some (<[address := v]> sc) ∧
       VotingPower v = p - a ∧
       VotingPower v < 0 ∧
       IsActive v = false ∧
       Address v = Address w ∧
       BlsKey v = BlsKey w.
Proof.
  intros Hw Hp Hlt. eexists. split; [by apply removeStake_Some|]. simpl.
  repeat split; try lia.
  destruct (Cmp (VotingPower w - a) bigZero) eqn:Hc; try done.
  apply Cmp_Gt in Hc. lia.
Qed.

Lemma C8_witness_unstake_more_than_staked :
  ∃ v, removeStake (ledger_of_stakes [(addrA, 10)]) addrA 25
         = Some (<[addrA := v]> (ledger_of_stakes [(addrA, 10)])) ∧
       VotingPower v = 10 - 25 ∧
       VotingPower v < 0 ∧
       IsActive v = false ∧
       Address v = Address (staker addrA 10) ∧
       BlsKey v = BlsKey (staker addrA 10).
Proof.
  apply (C8_removeStake_goes_negative (ledger_of_stakes [(addrA, 10)]) addrA
           (staker addrA 10) 10 25).
  - vm_compute. reflexivity.
  - reflexivity.
  - lia.
Defined.

(** ** C7: key resolution during block ingestion is a soft failure *)

(** C7: when a block carries transfer events and applying them completes,
    [PostBlock] returns no error whatever the root chain answers; for every
    touched entry that has no signing key once the events are applied
    [getBlsKey] was called for it, the stored entry carries the answer, and
    when the lookup fails a warning was logged and the entry is stored without
    a key. *)
Theorem C7_PostBlock_key_resolution_soft range_map s st req fvs event events tr sc :
  RangeOk range_map →
  fullValidatorSet st = Some fvs →
  eventsGetter_getFromBlocks s (BlockNumber fvs) (req_FullBlock req)
    = Some (event :: events) →
  applyTransferEvents (Validators fvs) (event :: events) = (tr, Some sc) →
  ∃ tr' st' fvs',
    PostBlock range_map s st req = (tr', Ok st') ∧
    fullValidatorSet st' = Some fvs' ∧
    ∀ a, touched a (event :: events) →
      ∃ v v', sc !! a = Some v ∧ Validators fvs' !! a = Some v' ∧
        (BlsKey v = None →
           CallGetBlsKey (Address v) ∈ tr' ∧
           BlsKey v' = getBlsKey s (Address v) ∧
           (getBlsKey s (Address v) = None →
              WarnCouldNotGetInfo (Block_Number (req_FullBlock req)) a ∈ tr' ∧
              BlsKey v' = None)).
Proof.
  intros Hr Hst Hget Happly.
  unfold PostBlock, getFullValidatorSet. rewrite Hst.
  rewrite (updateWithReceipts_events range_map Hr _ _ _ _ _ _ _ Hget Happly).
  eexists _, _, _. split; [done|]. split; [done|]. simpl.
  intros a Ht.
  pose proof (applyTransferEvents_touched _ _ _ _ _ Happly Ht) as [v Hv]%elem_of_dom.
  exists v, (resolved s v). split; [done|].
  split; [by rewrite lookup_fmap, Hv|].
  intros Hkey.
  assert ((a, v) ∈ range_map sc) as Hin by by apply (elem_of_range range_map Hr).
  assert (∀ e, e ∈ entryEffects s (Block_Number (req_FullBlock req)) (a, v) →
               e ∈ tr ++ (range_map sc ≫= entryEffects s (Block_Number (req_FullBlock req))))
    as Heff.
  { intros e He. apply elem_of_app. right. apply list_elem_of_bind. eauto. }
  unfold entryEffects in Heff. simpl in Heff. rewrite Hkey in Heff.
  split; [|split].
  - apply Heff. destruct (getBlsKey s (Address v)); left.
  - simpl. by rewrite Hkey.
  - intros Hfail. rewrite Hfail in Heff. split.
    + apply Heff. right. left.
    + simpl. by rewrite Hkey.
Qed.

Example PostBlock_soft_failure_run :
  PostBlock range_canonical manager_with_stake_B (store_of keyed_A_ledger) block_7_request =
  ([CallGetBlsKey addrB; WarnCouldNotGetInfo 7 addrB],
   Ok {| fullValidatorSet :=
           Some {| BlockNumber := 7; EpochID := 1; UpdatedAtBlockNumber := 0;
                   Validators := <[addrB := staker addrB 3]> keyed_A_ledger |} |}).
Proof. vm_compute. reflexivity. Qed.

Lemma C7_witness_first_stake_without_key :
  ∃ tr' st' fvs',
    PostBlock range_canonical manager_with_stake_B (store_of keyed_A_ledger) block_7_request
      = (tr', Ok st') ∧
    fullValidatorSet st' = Some fvs' ∧
    ∀ a, touched a (stake_event_B :: []) →
      ∃ v v', <[addrB := staker addrB 3]> keyed_A_ledger !! a = Some v ∧
              Validators fvs' !! a = Some v' ∧
        (BlsKey v = None →
           CallGetBlsKey (Address v) ∈ tr' ∧
           BlsKey v' = getBlsKey manager_with_stake_B (Address v) ∧
           (getBlsKey manager_with_stake_B (Address v) = None →
              WarnCouldNotGetInfo (Block_Number (req_FullBlock block_7_request)) a ∈ tr' ∧
              BlsKey v' = None)).
Proof.
  apply (C7_PostBlock_key_resolution_soft range_canonical manager_with_stake_B
           (store_of keyed_A_ledger) block_7_request
           {| BlockNumber := 0; EpochID := 0; UpdatedAtBlockNumber := 0;
              Validators := keyed_A_ledger |}
           stake_event_B [] []).
  - apply range_canonical_ok.
  - reflexivity.
  - reflexivity.
  - vm_compute. reflexivity.
Defined.

(** ** C4: conservation of voting power *)

(** C4, as stated, fails for an event sequence that unstakes from an address
    without a ledger entry: [removeStake] dereferences the missing record and
    the run panics, so there is no final voting power at all (the claim would
    have it be -1). *)
Lemma C4_counterexample_unstake_unknown_sender :
  IsUnstake unstake_event_A = true ∧
  powerOf (Validators empty_state) addrA = 0 ∧
  updateWithReceipts range_canonical manager_with_unstake_A empty_state
    {| Block_Number := 1 |} = ([], Panic).
Proof. repeat split; vm_compute; reflexivity. Qed.

(** C4 (amended): for every initial ledger and every sequence of transfer
    events in which each unstake event's sender has a ledger entry by the
    time the event is applied, [updateWithReceipts] completes and the final
    voting power of every address equals its initial voting power plus the
    stake amounts minted to it minus the unstake amounts burned from it (an
    address without an entry counts as zero). *)
Theorem C4_voting_power_conserved range_map s fvs fullBlock events :
  RangeOk range_map →
  eventsGetter_getFromBlocks s (BlockNumber fvs) fullBlock = Some events →
  senders_known (dom (Validators fvs)) events →
  ∃ tr fvs',
    updateWithReceipts range_map s fvs fullBlock = (tr, Ok fvs') ∧
    ∀ a, powerOf (Validators fvs') a =
         powerOf (Validators fvs) a + staked a events - unstaked a events.
Proof.
  intros Hr Hget Hknown.
  destruct (applyTransferEvents_completes _ _ Hknown) as (tr & sc & Happly).
  pose proof (applyTransferEvents_conserves _ _ _ _ Happly) as Hcons.
  destruct events as [|event events].
  - rewrite (updateWithReceipts_no_events range_map) by done.
    eexists _, _. split; [done|]. intros a. simpl. lia.
  - rewrite (updateWithReceipts_events range_map Hr _ _ _ _ _ _ _ Hget Happly).
    eexists _, _. split; [done|]. intros a. simpl.
    by rewrite powerOf_resolved.
Qed.

Example three_events_powers :
  (updateWithReceipts range_canonical manager_with_three_events keyed_A_state
     {| Block_Number := 7 |}).2 =
  Ok {| BlockNumber := 6; EpochID := 1; UpdatedAtBlockNumber := 6;
        Validators :=
          {[ addrA := {| Address := addrA; BlsKey := Some [7%N];
                         VotingPower := 3; IsActive := true |};
             addrB := staker addrB 3 ]} |}.
Proof. vm_compute. reflexivity. Qed.

Lemma C4_witness_three_events :
  ∃ tr fvs',
    updateWithReceipts range_canonical manager_with_three_events keyed_A_state
      {| Block_Number := 7 |} = (tr, Ok fvs') ∧
    ∀ a, powerOf (Validators fvs') a =
         powerOf (Validators keyed_A_state) a + staked a three_events
         - unstaked a three_events.
Proof.
  apply (C4_voting_power_conserved range_canonical manager_with_three_events
           keyed_A_state {| Block_Number := 7 |} three_events).
  - apply range_canonical_ok.
  - reflexivity.
  - vm_compute. split; [reflexivity|exact I].
Defined.

(** ** C5: the active flag follows the power *)

(** C5, as stated, fails at initialisation: [PostEpoch] copies the records
    of the validator set it is given, flags included, and [addStake] on
    another address leaves them as they are. With a genesis record flagged
    active at power 0 the ledger reached after [PostEpoch] and one [addStake]
    holds an entry whose flag contradicts its power. *)
Lemma C5_counterexample_genesis_flag_copied :
  PostEpoch {| fullValidatorSet := None |}
    {| NewEpochID := 1; ValidatorSet_Accounts := [flagged_without_power] |}
    = store_of (newValidatorStakeMap [flagged_without_power]) ∧
  ledger_reachable [flagged_without_power]
    (addStake (newValidatorStakeMap [flagged_without_power]) addrB 5) ∧
  addStake (newValidatorStakeMap [flagged_without_power]) addrB 5 !! addrA
    = Some flagged_without_power ∧
  IsActive flagged_without_power = true ∧
  VotingPower flagged_without_power = 0.
Proof.
  split; [reflexivity|].
  split; [apply reach_addStake, reach_PostEpoch|].
  repeat split; vm_compute; reflexivity.
Qed.

Lemma updateWithReceipts_consistent range_map s fvs fullBlock tr fvs' :
  RangeOk range_map →
  updateWithReceipts range_map s fvs fullBlock = (tr, Ok fvs') →
  ledger_consistent (Validators fvs) → ledger_consistent (Validators fvs').
Proof.
  intros Hr Hu Hc.
  destruct (updateWithReceipts_Ok range_map Hr _ _ _ _ _ Hu)
    as [->|(events & tr1 & sc & _ & _ & ->)]; [done|].
  apply resolved_consistent.
Qed.

Lemma updateWithReceipts_wf range_map s fvs fullBlock tr fvs' :
  RangeOk range_map →
  updateWithReceipts range_map s fvs fullBlock = (tr, Ok fvs') →
  ledger_wf (Validators fvs) → ledger_wf (Validators fvs').
Proof.
  intros Hr Hu Hwf.
  destruct (updateWithReceipts_Ok range_map Hr _ _ _ _ _ Hu)
    as [->|(events & tr1 & sc & _ & Ha & ->)]; [done|].
  eapply resolved_wf, applyTransferEvents_wf; eauto.
Qed.

(** Filing under the record's own address needs no assumption at all. *)
Lemma ledger_reachable_wf genesis sc : ledger_reachable genesis sc → ledger_wf sc.
Proof.
  induction 1 as [|sc a amt _ IH|sc a amt sc' _ IH Hr|range_map s fvs fb tr fvs' Hr _ IH Hu].
  - apply newValidatorStakeMap_wf.
  - by apply addStake_wf.
  - by eapply removeStake_wf.
  - by eapply updateWithReceipts_wf.
Qed.

(** The same through the hooks of the manager: the empty store, and every
    store [PostEpoch] and [PostBlock] produce from a well-formed one. *)
Lemma store_empty_wf : store_wf {| fullValidatorSet := None |}.
Proof. intros fvs H. discriminate H. Qed.

Lemma PostEpoch_wf st req : store_wf st → store_wf (PostEpoch st req).
Proof.
  intros Hwf. unfold PostEpoch. destruct (negb (NewEpochID req =? 1)); [done|].
  intros fvs [= <-]. apply newValidatorStakeMap_wf.
Qed.

Lemma PostBlock_wf range_map s st req tr st' :
  RangeOk range_map →
  PostBlock range_map s st req = (tr, Ok st') →
  store_wf st → store_wf st'.
Proof.
  intros Hr Hpb Hwf. unfold PostBlock, getFullValidatorSet in Hpb.
  destruct (fullValidatorSet st) as [fvs|] eqn:Hst; [|done].
  destruct (updateWithReceipts range_map s fvs (req_FullBlock req)) as [tr1 [fvs1| |]] eqn:Hu;
    try done.
  injection Hpb as _ <-. intros fvs' [= <-]. simpl.
  eapply updateWithReceipts_wf; eauto.
Qed.

(** C5 (amended): when the validator set handed to [PostEpoch] has every
    active flag equal to (voting power > 0), every ledger reached from it by
    [addStake], [removeStake] and [updateWithReceipts] satisfies
    IsActive = (VotingPower > 0) on every record; moreover, whatever the
    ledger was before, after an [updateWithReceipts] that applied at least one
    event every record satisfies it. *)
Theorem C5_active_flag_consistent genesis sc :
  Forall flag_consistent genesis →
  ledger_reachable genesis sc →
  ledger_consistent sc ∧
  (∀ range_map s fvs fullBlock event events tr fvs',
     RangeOk range_map →
     eventsGetter_getFromBlocks s (BlockNumber fvs) fullBlock = Some (event :: events) →
     updateWithReceipts range_map s fvs fullBlock = (tr, Ok fvs') →
     ledger_consistent (Validators fvs')).
Proof.
  intros Hgen Hreach. split.
  - induction Hreach
      as [|sc a amt _ IH|sc a amt sc' _ IH Hr|range_map s fvs fb tr fvs' Hr _ IH Hu].
    + by apply newValidatorStakeMap_consistent.
    + by apply addStake_consistent.
    + by eapply removeStake_consistent.
    + by eapply updateWithReceipts_consistent.
  - intros range_map s fvs fullBlock event events tr fvs' Hr Hget Hu.
    destruct (applyTransferEvents (Validators fvs) (event :: events)) as [tr1 [sc1|]] eqn:Ha.
    + rewrite (updateWithReceipts_events range_map Hr _ _ _ _ _ _ _ Hget Ha) in Hu.
      injection Hu as _ <-. apply resolved_consistent.
    + unfold updateWithReceipts in Hu. by rewrite Hget, Ha in Hu.
Qed.

Lemma C5_witness_consistent_genesis :
  ledger_consistent (addStake (newValidatorStakeMap example_old_set) addrB 5) ∧
  (∀ range_map s fvs fullBlock event events tr fvs',
     RangeOk range_map →
     eventsGetter_getFromBlocks s (BlockNumber fvs) fullBlock = Some (event :: events) →
     updateWithReceipts range_map s fvs fullBlock = (tr, Ok fvs') →
     ledger_consistent (Validators fvs')).
Proof.
  apply (C5_active_flag_consistent example_old_set).
  - repeat (apply List.Forall_cons; [split; [intros _; simpl; lia|reflexivity]|]).
    apply List.Forall_nil.
  - apply reach_addStake, reach_PostEpoch.
Defined.

(** ** C9: exit events of an epoch-ending block *)

(** The second case of [TestCheckpointManager_PostBlock]: block 6 ends
    epoch 1 and carries the exit events 5..9; they are found in epoch 2 under
    block 7. *)
Example test_PostBlock_epoch_ending_block :
  let store :=
    ExitEvents.PostBlock
      (ExitEvents.PostBlock []
         {| ExitEvents.Block := 5; ExitEvents.Epoch := 1;
            ExitEvents.IsEpochEndingBlock := false;
            ExitEvents.Receipts := ExitEvents.createReceipts 0 5 |})
      {| ExitEvents.Block := 6; ExitEvents.Epoch := 1;
         ExitEvents.IsEpochEndingBlock := true;
         ExitEvents.Receipts := ExitEvents.createReceipts 5 5 |} in
  let exitEvents :=
    ExitEvents.getExitEvents store 2 (λ e, ExitEvents.BlockNumber e =? 7) in
  length exitEvents = 5%nat ∧
  ExitEvents.BlockNumber <$> head exitEvents = Some 7 ∧
  ExitEvents.EpochNumber <$> head exitEvents = Some 2 ∧
  length (ExitEvents.getExitEvents store 1 (λ e, ExitEvents.BlockNumber e =? 5)) = 5%nat ∧
  ExitEvents.getExitEvents store 1 (λ e, ExitEvents.BlockNumber e =? 6) = [].
Proof. vm_compute. repeat split. Qed.

(** The epochs of the blocks 1..10 at epoch size 2, and the blocks of them
    that end an epoch, as [TestCheckpointManager_SubmitCheckpoint] has them. *)
Example test_SubmitCheckpoint_epochs :
  (λ i, ExitEvents.getEpochNumber i 2) <$> [1; 2; 3; 4; 5; 6; 7; 8; 9; 10]
    = [1; 1; 2; 2; 3; 3; 4; 4; 5; 5] ∧
  filter (λ i, ExitEvents.isEndOfPeriod i 2 = true) [1; 2; 3; 4; 5; 6; 7; 8; 9; 10]
    = [2; 4; 6; 8; 10].
Proof. split; vm_compute; reflexivity. Qed.









(** * Further properties of the code *)

(** ** [getSorted]: size, prefixes and the cut *)

Lemma active_count_canonical range_map sc :
  RangeOk range_map →
  length (sort_Slice less (activeValidators_of range_map sc)) =
  length (filter (λ v, 0 < VotingPower v) (snd <$> map_to_list sc)).
Proof.
  intros Hr. rewrite sort_Slice_perm, (activeValidators_canonical range_map Hr).
  unfold activeValidators_of, range_canonical.
  erewrite list_filter_iff; [done|]. intros v. apply Cmp_Gt.
Qed.

(** X1: for a non-negative bound [getSorted] returns exactly
    min(bound, number of ledger entries with positive power) validators:
    never more than the bound, and all positive entries when the bound
    allows. *)
Theorem getSorted_length range_map sc maxValidatorSetSize res :
  RangeOk range_map →
  0 ≤ maxValidatorSetSize →
  getSorted range_map sc maxValidatorSetSize = Some res →
  length res =
  Nat.min (Z.to_nat maxValidatorSetSize)
          (length (filter (λ v, 0 < VotingPower v) (snd <$> map_to_list sc))).
Proof.
  intros Hr Hn Hres. rewrite getSorted_nonneg in Hres by done.
  injection Hres as <-. by rewrite length_take, active_count_canonical.
Qed.

Lemma getSorted_length_witness :
  length [staker addrA 10; staker addrB 10] =
  Nat.min (Z.to_nat 2)
          (length (filter (λ v, 0 < VotingPower v) (snd <$> map_to_list scenario_ledger))).
Proof.
  apply (getSorted_length range_reversed scenario_ledger 2).
  - apply range_reversed_ok.
  - lia.
  - vm_compute. reflexivity.
Defined.

(** X2: raising the bound only appends: for 0 <= n <= m the slice
    returned for [n] is the first [n] entries of the slice returned for
    [m]. *)
Theorem getSorted_prefix range_map sc n m res_n res_m :
  0 ≤ n ≤ m →
  getSorted range_map sc n = Some res_n →
  getSorted range_map sc m = Some res_m →
  res_n = take (Z.to_nat n) res_m.
Proof.
  intros Hnm Hn Hm.
  rewrite getSorted_nonneg in Hn by lia. rewrite getSorted_nonneg in Hm by lia.
  injection Hn as <-. injection Hm as <-.
  rewrite take_take. f_equal. lia.
Qed.

Lemma getSorted_prefix_witness :
  [staker addrA 10] = take (Z.to_nat 1) [staker addrA 10; staker addrB 10].
Proof.
  apply (getSorted_prefix range_canonical scenario_ledger 1 2).
  - lia.
  - vm_compute. reflexivity.
  - vm_compute. reflexivity.
Defined.

(** X3: the cut keeps the best: every ledger entry with positive power that
    [getSorted] leaves out comes after every validator it returns (lower
    power, or equal power and a larger address). *)
Theorem getSorted_leaves_out_the_last range_map sc maxValidatorSetSize res u v a :
  RangeOk range_map →
  ledger_wf sc →
  getSorted range_map sc maxValidatorSetSize = Some res →
  u ∈ res →
  sc !! a = Some v → 0 < VotingPower v → v ∉ res →
  precedes u v.
Proof.
  intros Hr Hwf Hres Hu Hv Hp Hnot.
  set (s := sort_Slice less (activeValidators_of range_map sc)) in *.
  assert (StronglySorted precedes s) as Hs by by apply sorted_active_strict.
  assert (v ∈ s) as Hvs.
  { unfold s. rewrite sort_Slice_perm. apply (elem_of_activeValidators range_map Hr). eauto. }
  assert (∃ n, res = take n s) as [n ->].
  { unfold getSorted in Hres. fold s in Hres.
    destruct (Z.of_nat (length s) <=? maxValidatorSetSize).
    - injection Hres as <-. exists (length s). by rewrite take_ge.
    - destruct (0 <=? maxValidatorSetSize); [|done]. injection Hres as <-. eauto. }
  rewrite <- (take_drop n s) in Hs, Hvs.
  apply elem_of_app in Hvs as [?|Hvd]; [done|].
  eapply StronglySorted_app_1_elem_of; eauto.
Qed.

Lemma getSorted_leaves_out_the_last_witness :
  precedes (staker addrB 10) (staker addrC 5).
Proof.
  apply (getSorted_leaves_out_the_last range_canonical scenario_ledger 2
           [staker addrA 10; staker addrB 10] (staker addrB 10) (staker addrC 5) addrC).
  - apply range_canonical_ok.
  - apply ledger_of_stakes_wf.
  - vm_compute. reflexivity.
  - right. left.
  - vm_compute. reflexivity.
  - simpl. lia.
  - rewrite !not_elem_of_cons. repeat split; (discriminate || apply not_elem_of_nil).
Defined.

Lemma getSorted_members range_map sc maxValidatorSetSize res :
  RangeOk range_map →
  ledger_wf sc →
  getSorted range_map sc maxValidatorSetSize = Some res →
  NoDup (Address <$> res) ∧
  ∀ v, v ∈ res → sc !! Address v = Some v ∧ 0 < VotingPower v.
Proof.
  intros Hr Hwf Hres.
  set (s := sort_Slice less (activeValidators_of range_map sc)) in *.
  assert (res `sublist_of` s) as Hsub.
  { unfold getSorted in Hres. fold s in Hres.
    destruct (Z.of_nat (length s) <=? maxValidatorSetSize).
    - by injection Hres as <-.
    - destruct (0 <=? maxValidatorSetSize); [|done]. injection Hres as <-.
      apply sublist_take. }
  split.
  - eapply sublist_NoDup; [|by apply fmap_sublist].
    unfold s. rewrite sort_Slice_perm. by apply activeValidators_NoDup.
  - intros v Hv. eapply elem_of_sublist in Hv; [|exact Hsub].
    unfold s in Hv. rewrite sort_Slice_perm in Hv.
    apply (elem_of_activeValidators range_map Hr) in Hv as (a & Ha & Hp).
    split; [|done]. by rewrite (Hwf a v Ha).
Qed.

(** X4: what [getSorted] returns are the ledger's own records: each is the
    entry stored under its address and has positive power, and no address
    occurs twice. *)
Theorem getSorted_returns_ledger_records range_map sc maxValidatorSetSize res :
  RangeOk range_map →
  ledger_wf sc →
  getSorted range_map sc maxValidatorSetSize = Some res →
  NoDup (Address <$> res) ∧
  ∀ v, v ∈ res → sc !! Address v = Some v ∧ 0 < VotingPower v.
Proof. apply getSorted_members. Qed.

Lemma getSorted_returns_ledger_records_witness :
  NoDup (Address <$> [staker addrA 10; staker addrB 10]) ∧
  ∀ v, v ∈ [staker addrA 10; staker addrB 10] →
       scenario_ledger !! Address v = Some v ∧ 0 < VotingPower v.
Proof.
  apply (getSorted_returns_ledger_records range_reversed scenario_ledger 2).
  - apply range_reversed_ok.
  - apply ledger_of_stakes_wf.
  - vm_compute. reflexivity.
Defined.

(** ** [addStake] and [removeStake]: composition and round trips *)

(** X5: two stakes to the same address add up: staking [x] and then [y] leaves
    the same ledger as staking [x + y] at once, whether or not the address
    had an entry. *)
Theorem addStake_addStake sc a x y :
  addStake (addStake sc a x) a y = addStake sc a (x + y).
Proof.
  unfold addStake at 1. unfold addStake.
  destruct (sc !! a) as [w|]; rewrite lookup_insert_eq; simpl;
    rewrite insert_insert_eq; by rewrite ?Z.add_assoc.
Qed.

(** X6: operations on different addresses commute: two stakes, a stake and
    an unstake, in either order, leave the same ledger (and the unstake panics
    in one order exactly when it does in the other). *)
Theorem stake_operations_commute sc a b x y :
  a ≠ b →
  addStake (addStake sc a x) b y = addStake (addStake sc b y) a x ∧
  removeStake (addStake sc a x) b y = (λ sc', addStake sc' a x) <$> removeStake sc b y.
Proof.
  intros Hne. split.
  - unfold addStake at 1 3. rewrite !addStake_lookup_ne by done.
    unfold addStake.
    destruct (sc !! a), (sc !! b); by apply insert_insert_ne.
  - unfold removeStake. rewrite addStake_lookup_ne by done.
    destruct (sc !! b) as [w|]; [|done]. simpl. f_equal.
    unfold addStake. rewrite lookup_insert_ne by done.
    destruct (sc !! a); by apply insert_insert_ne.
Qed.

Lemma stake_operations_commute_witness :
  addStake (addStake keyed_A_ledger addrA 5) addrB 3
    = addStake (addStake keyed_A_ledger addrB 3) addrA 5 ∧
  removeStake (addStake keyed_A_ledger addrA 5) addrB 3
    = (λ sc', addStake sc' addrA 5) <$> removeStake keyed_A_ledger addrB 3.
Proof.
  apply (stake_operations_commute keyed_A_ledger addrA addrB 5 3).
  discriminate.
Defined.

(** X7: staking an amount to an existing entry and unstaking the same amount
    restores the ledger, provided the entry's active flag agreed with its
    power (the flag is recomputed, everything else is kept). *)
Theorem removeStake_undoes_addStake sc a w x :
  sc !! a = Some w →
  flag_consistent w →
  removeStake (addStake sc a x) a x = Some sc.
Proof.
  intros Hw Hflag. unfold addStake. rewrite Hw.
  rewrite (removeStake_Some _ a x _ (lookup_insert_eq _ _ _)). simpl.
  rewrite insert_insert_eq. f_equal. apply insert_id. rewrite Hw. f_equal.
  destruct w as [wa wk wp wf]. unfold flag_consistent in Hflag. simpl in *.
  replace (wp + x - x) with wp by lia. f_equal.
  pose proof (Cmp_Gt_bool wp) as Hb.
  destruct (match Cmp wp bigZero with Gt => true | _ => false end), wf; try done.
  - assert (false = true) by (apply Hflag, Hb; done). done.
  - assert (false = true) by (apply Hb, Hflag; done). done.
Qed.

Lemma removeStake_undoes_addStake_witness :
  removeStake (addStake keyed_A_ledger addrA 5) addrA 5 = Some keyed_A_ledger.
Proof.
  apply (removeStake_undoes_addStake keyed_A_ledger addrA
           {| Address := addrA; BlsKey := Some [7%N]; VotingPower := 10; IsActive := true |} 5).
  - vm_compute. reflexivity.
  - split; [intros _; simpl; lia|reflexivity].
Defined.

(** X8: entries are never deleted: a first stake followed by an unstake of
    the same amount does not return to the ledger without the address but
    leaves an inactive entry of power 0 without key under it. *)
Theorem first_stake_then_unstake_leaves_entry sc a x :
  sc !! a = None →
  removeStake (addStake sc a x) a x =
  Some (<[a := {| Address := a; BlsKey := None; VotingPower := 0; IsActive := false |}]> sc).
Proof.
  intros Hnone. unfold addStake. rewrite Hnone.
  rewrite (removeStake_Some _ a x _ (lookup_insert_eq _ _ _)). simpl.
  rewrite insert_insert_eq. by rewrite Z.sub_diag.
Qed.

Lemma first_stake_then_unstake_leaves_entry_witness :
  removeStake (addStake keyed_A_ledger addrB 3) addrB 3 =
  Some (<[addrB := {| Address := addrB; BlsKey := None; VotingPower := 0;
                      IsActive := false |}]> keyed_A_ledger).
Proof.
  apply (first_stake_then_unstake_leaves_entry keyed_A_ledger addrB 3).
  vm_compute. reflexivity.
Defined.

(** ** [PostBlock] and [updateWithReceipts]: what a block does to the store *)

Lemma addStake_keeps_identity sc a v b amt :
  sc !! a = Some v →
  ∃ v', addStake sc b amt !! a = Some v' ∧ BlsKey v' = BlsKey v ∧ Address v' = Address v.
Proof.
  intros Hv. destruct (decide (b = a)) as [->|Hne].
  - destruct (addStake_lookup sc a amt) as (v' & Hv' & _ & _ & Ha & Hk).
    rewrite Hv in Ha, Hk. eauto.
  - rewrite addStake_lookup_ne by done. eauto.
Qed.

Lemma removeStake_keeps_identity sc a v b amt sc' :
  sc !! a = Some v →
  removeStake sc b amt = Some sc' →
  ∃ v', sc' !! a = Some v' ∧ BlsKey v' = BlsKey v ∧ Address v' = Address v.
Proof.
  intros Hv Hr. destruct (decide (b = a)) as [->|Hne].
  - destruct (removeStake_lookup _ _ _ _ Hr) as (w & v' & Hw & Hv' & _ & _ & Ha & Hk).
    rewrite Hv in Hw. injection Hw as <-. eauto.
  - rewrite (removeStake_lookup_ne _ _ _ _ _ Hr Hne). eauto.
Qed.

Lemma applyTransferEvents_keeps_identity sc events tr sc' a v :
  applyTransferEvents sc events = (tr, Some sc') →
  sc !! a = Some v →
  ∃ v', sc' !! a = Some v' ∧ BlsKey v' = BlsKey v ∧ Address v' = Address v.
Proof.
  revert sc tr v. induction events as [|event rest IH]; intros sc tr v; simpl.
  - intros [= _ <-] Hv. eauto.
  - destruct (IsStake event).
    + intros H Hv.
      destruct (addStake_keeps_identity sc a v (To event) (Value event) Hv)
        as (v1 & Hv1 & Hk1 & Ha1).
      destruct (IH _ _ _ H Hv1) as (v' & Hv' & Hk & Ha).
      exists v'. split; [done|]. split; congruence.
    + destruct (IsUnstake event).
      * destruct (removeStake sc (From event) (Value event)) as [sc1|] eqn:Hr; [|done].
        intros H Hv.
        destruct (removeStake_keeps_identity _ _ _ _ _ _ Hv Hr) as (v1 & Hv1 & Hk1 & Ha1).
        destruct (IH _ _ _ H Hv1) as (v' & Hv' & Hk & Ha).
        exists v'. split; [done|]. split; congruence.
      * destruct (applyTransferEvents sc rest) as [tr1 r1] eqn:Hrest.
        intros [= _ ->] Hv. eapply IH; eauto.
Qed.

Lemma applyTransferEvents_trace sc events :
  Forall (λ e, e = WarnNeitherStakeNorUnstake) (applyTransferEvents sc events).1.
Proof.
  revert sc. induction events as [|event rest IH]; intros sc; simpl; [constructor|].
  destruct (IsStake event); [apply IH|].
  destruct (IsUnstake event).
  - destruct (removeStake sc (From event) (Value event)); [apply IH|constructor].
  - specialize (IH sc). destruct (applyTransferEvents sc rest) as [tr r]. simpl in *.
    by constructor.
Qed.

Lemma applyTransferEvents_senders_known sc events tr sc' :
  applyTransferEvents sc events = (tr, Some sc') → senders_known (dom sc) events.
Proof.
  revert sc tr. induction events as [|event rest IH]; intros sc tr; simpl; [done|].
  destruct (IsStake event).
  - intros H%IH. by rewrite addStake_dom in H.
  - destruct (IsUnstake event).
    + destruct (removeStake sc (From event) (Value event)) as [sc1|] eqn:Hr; [|done].
      intros H%IH. rewrite (removeStake_dom _ _ _ _ Hr) in H. split; [|done].
      apply (removeStake_is_Some sc (From event) (Value event)). by rewrite Hr.
    + destruct (applyTransferEvents sc rest) as [tr1 r1] eqn:Hrest.
      intros [= _ ->]. eapply IH; eauto.
Qed.

Section BlockFacts.

Variable range_map : validatorStakeMap → list (types_Address * ValidatorMetadata).
Hypothesis range_ok : RangeOk range_map.

(** A normal return of [updateWithReceipts], with its trace. *)
Lemma updateWithReceipts_Ok_trace s fvs fullBlock tr fvs' :
  updateWithReceipts range_map s fvs fullBlock = (tr, Ok fvs') →
  (eventsGetter_getFromBlocks s (BlockNumber fvs) fullBlock = Some [] ∧
   tr = [] ∧ fvs' = fvs) ∨
  ∃ event events tr1 sc,
    eventsGetter_getFromBlocks s (BlockNumber fvs) fullBlock = Some (event :: events) ∧
    applyTransferEvents (Validators fvs) (event :: events) = (tr1, Some sc) ∧
    tr = tr1 ++ (range_map sc ≫= entryEffects s (Block_Number fullBlock)) ∧
    fvs' = {| BlockNumber := BlockNumber fvs;
              EpochID := EpochID fvs;
              UpdatedAtBlockNumber := BlockNumber fvs;
              Validators := resolved s <$> sc |}.
Proof.
  destruct (eventsGetter_getFromBlocks s (BlockNumber fvs) fullBlock)
    as [[|event events]|] eqn:Hget.
  - rewrite (updateWithReceipts_no_events range_map) by done. intros [= <- <-]. by left.
  - destruct (applyTransferEvents (Validators fvs) (event :: events)) as [tr1 [sc|]] eqn:Ha.
    + rewrite (updateWithReceipts_events range_map range_ok _ _ _ _ _ _ _ Hget Ha).
      intros [= <- <-]. right. by exists event, events, tr1, sc.
    + unfold updateWithReceipts. by rewrite Hget, Ha.
  - unfold updateWithReceipts. by rewrite Hget.
Qed.

(** A normal return of [PostBlock]. *)
Lemma PostBlock_Ok s st req tr st' :
  PostBlock range_map s st req = (tr, Ok st') →
  ∃ fvs fvs1,
    fullValidatorSet st = Some fvs ∧
    updateWithReceipts range_map s fvs (req_FullBlock req) = (tr, Ok fvs1) ∧
    st' = {| fullValidatorSet :=
               Some {| BlockNumber := Block_Number (req_FullBlock req);
                       EpochID := req_Epoch req;
                       UpdatedAtBlockNumber := UpdatedAtBlockNumber fvs1;
                       Validators := Validators fvs1 |} |}.
Proof.
  unfold PostBlock, getFullValidatorSet.
  destruct (fullValidatorSet st) as [fvs|]; [|done].
  destruct (updateWithReceipts range_map s fvs (req_FullBlock req)) as [tr1 [fvs1| |]] eqn:Hu;
    try done.
  intros [= <- <-]. by exists fvs, fvs1.
Qed.

End BlockFacts.

(** X9: [PostBlock] never drops a validator from the ledger: every address
    that had an entry before the block has one after it. *)
Theorem PostBlock_never_shrinks_ledger range_map s st req fvs tr st' :
  RangeOk range_map →
  fullValidatorSet st = Some fvs →
  PostBlock range_map s st req = (tr, Ok st') →
  ∃ fvs', fullValidatorSet st' = Some fvs' ∧
          dom (Validators fvs) ⊆ dom (Validators fvs').
Proof.
  intros Hr Hst (fvs0 & fvs1 & Hst0 & Hu & ->)%(PostBlock_Ok range_map).
  rewrite Hst in Hst0. injection Hst0 as <-.
  eexists. split; [done|]. simpl.
  destruct (updateWithReceipts_Ok range_map Hr _ _ _ _ _ Hu)
    as [->|(events & tr1 & sc & _ & Ha & ->)]; [done|].
  rewrite dom_fmap_L. by eapply applyTransferEvents_dom.
Qed.

Lemma PostBlock_never_shrinks_ledger_witness :
  ∃ fvs', fullValidatorSet
            {| fullValidatorSet :=
                 Some {| BlockNumber := 7; EpochID := 1; UpdatedAtBlockNumber := 0;
                         Validators := <[addrB := staker addrB 3]> keyed_A_ledger |} |}
            = Some fvs' ∧
          dom (Validators {| BlockNumber := 0; EpochID := 0; UpdatedAtBlockNumber := 0;
                             Validators := keyed_A_ledger |}) ⊆ dom (Validators fvs').
Proof.
  apply (PostBlock_never_shrinks_ledger range_canonical manager_with_stake_B
           (store_of keyed_A_ledger) block_7_request _
           [CallGetBlsKey addrB; WarnCouldNotGetInfo 7 addrB]).
  - apply range_canonical_ok.
  - reflexivity.
  - vm_compute. reflexivity.
Defined.

(** X10: the bookkeeping of [PostBlock]: the stored block number and epoch
    become the request's; a block without transfer events changes nothing
    else (no record is touched, no key looked up, no warning written), and a
    block with events sets [UpdatedAtBlockNumber] to the block number that was
    stored before, not to the number of the block just processed. *)
Theorem PostBlock_bookkeeping range_map s st req fvs events tr st' :
  RangeOk range_map →
  fullValidatorSet st = Some fvs →
  eventsGetter_getFromBlocks s (BlockNumber fvs) (req_FullBlock req) = Some events →
  PostBlock range_map s st req = (tr, Ok st') →
  ∃ fvs', fullValidatorSet st' = Some fvs' ∧
    BlockNumber fvs' = Block_Number (req_FullBlock req) ∧
    EpochID fvs' = req_Epoch req ∧
    (events = [] →
       UpdatedAtBlockNumber fvs' = UpdatedAtBlockNumber fvs ∧
       Validators fvs' = Validators fvs ∧ tr = []) ∧
    (events ≠ [] → UpdatedAtBlockNumber fvs' = BlockNumber fvs).
Proof.
  intros Hr Hst Hget (fvs0 & fvs1 & Hst0 & Hu & ->)%(PostBlock_Ok range_map).
  rewrite Hst in Hst0. injection Hst0 as <-.
  eexists. split; [done|]. simpl. split; [done|]. split; [done|].
  destruct (updateWithReceipts_Ok_trace range_map Hr _ _ _ _ _ Hu)
    as [(Hget' & -> & ->)|(event & rest & tr1 & sc & Hget' & _ & _ & ->)];
    rewrite Hget in Hget'; injection Hget' as ->.
  - split; [done|]. intros Hne. done.
  - split; [discriminate|]. done.
Qed.

Lemma PostBlock_bookkeeping_witness :
  ∃ fvs', fullValidatorSet
            {| fullValidatorSet :=
                 Some {| BlockNumber := 7; EpochID := 1; UpdatedAtBlockNumber := 6;
                         Validators :=
                           {[ addrA := {| Address := addrA; BlsKey := Some [7%N];
                                          VotingPower := 3; IsActive := true |};
                              addrB := staker addrB 3 ]} |} |} = Some fvs' ∧
    BlockNumber fvs' = Block_Number (req_FullBlock block_7_request) ∧
    EpochID fvs' = req_Epoch block_7_request ∧
    (three_events = [] →
       UpdatedAtBlockNumber fvs' = UpdatedAtBlockNumber keyed_A_state ∧
       Validators fvs' = Validators keyed_A_state ∧
       [CallGetBlsKey addrB; WarnCouldNotGetInfo 7 addrB] = []) ∧
    (three_events ≠ [] → UpdatedAtBlockNumber fvs' = BlockNumber keyed_A_state).
Proof.
  apply (PostBlock_bookkeeping range_canonical manager_with_three_events
           {| fullValidatorSet := Some keyed_A_state |} block_7_request keyed_A_state
           three_events).
  - apply range_canonical_ok.
  - reflexivity.
  - reflexivity.
  - vm_compute. reflexivity.
Defined.

(** X11: a stored signing key is never lost and never looked up again:
    after [PostBlock] every entry that had a key still has that key, and
    [getBlsKey] was called only for addresses whose entry is new or had no
    key, the entry then carrying what the call returned. *)
Theorem PostBlock_stored_keys_kept range_map s st req fvs tr st' :
  RangeOk range_map →
  fullValidatorSet st = Some fvs →
  PostBlock range_map s st req = (tr, Ok st') →
  ∃ fvs', fullValidatorSet st' = Some fvs' ∧
    (∀ a v k, Validators fvs !! a = Some v → BlsKey v = Some k →
       ∃ v', Validators fvs' !! a = Some v' ∧ BlsKey v' = Some k) ∧
    (∀ x, CallGetBlsKey x ∈ tr →
       ∃ a v', Validators fvs' !! a = Some v' ∧ Address v' = x ∧
               BlsKey v' = getBlsKey s x ∧
               ∀ v, Validators fvs !! a = Some v → BlsKey v = None).
Proof.
  intros Hr Hst (fvs0 & fvs1 & Hst0 & Hu & ->)%(PostBlock_Ok range_map).
  rewrite Hst in Hst0. injection Hst0 as <-.
  eexists. split; [done|]. simpl.
  destruct (updateWithReceipts_Ok_trace range_map Hr _ _ _ _ _ Hu)
    as [(_ & -> & ->)|(event & rest & tr1 & sc & _ & Ha & -> & ->)]; simpl.
  - split; [eauto|]. intros x Hx. by apply elem_of_nil in Hx.
  - split.
    + intros a v k Hv Hk.
      destruct (applyTransferEvents_keeps_identity _ _ _ _ _ _ Ha Hv) as (v1 & Hv1 & Hk1 & _).
      exists (resolved s v1). rewrite lookup_fmap, Hv1. split; [done|].
      simpl. by rewrite Hk1, Hk.
    + intros x Hx. apply elem_of_app in Hx as [Hx|Hx].
      * pose proof (applyTransferEvents_trace (Validators fvs) (event :: rest)) as Htr.
        rewrite Ha in Htr. simpl in Htr. rewrite Forall_forall in Htr.
        by specialize (Htr _ Hx).
      * apply list_elem_of_bind in Hx as ([a d] & Hx & Hin).
        apply (elem_of_range range_map Hr) in Hin.
        unfold entryEffects in Hx. simpl in Hx.
        destruct (BlsKey d) as [k|] eqn:Hkd; [by apply elem_of_nil in Hx|].
        assert (x = Address d) as ->.
        { destruct (getBlsKey s (Address d)).
          - apply list_elem_of_singleton in Hx. by injection Hx.
          - apply elem_of_cons in Hx as [Hx|Hx]; [by injection Hx|].
            apply list_elem_of_singleton in Hx. discriminate Hx. }
        exists a, (resolved s d). rewrite lookup_fmap, Hin. split; [done|].
        split; [done|]. split; [simpl; by rewrite Hkd|].
        intros v Hv.
        destruct (applyTransferEvents_keeps_identity _ _ _ _ _ _ Ha Hv) as (v1 & Hv1 & Hk1 & _).
        rewrite Hin in Hv1. injection Hv1 as <-. congruence.
Qed.

Lemma PostBlock_stored_keys_kept_witness :
  ∃ fvs', fullValidatorSet
            {| fullValidatorSet :=
                 Some {| BlockNumber := 7; EpochID := 1; UpdatedAtBlockNumber := 0;
                         Validators := <[addrB := staker addrB 3]> keyed_A_ledger |} |}
            = Some fvs' ∧
    (∀ a v k, Validators {| BlockNumber := 0; EpochID := 0; UpdatedAtBlockNumber := 0;
                            Validators := keyed_A_ledger |} !! a = Some v →
              BlsKey v = Some k →
       ∃ v', Validators fvs' !! a = Some v' ∧ BlsKey v' = Some k) ∧
    (∀ x, CallGetBlsKey x ∈ [CallGetBlsKey addrB; WarnCouldNotGetInfo 7 addrB] →
       ∃ a v', Validators fvs' !! a = Some v' ∧ Address v' = x ∧
               BlsKey v' = getBlsKey manager_with_stake_B x ∧
               ∀ v, Validators {| BlockNumber := 0; EpochID := 0; UpdatedAtBlockNumber := 0;
                                  Validators := keyed_A_ledger |} !! a = Some v →
                    BlsKey v = None).
Proof.
  apply (PostBlock_stored_keys_kept range_canonical manager_with_stake_B
           (store_of keyed_A_ledger) block_7_request).
  - apply range_canonical_ok.
  - reflexivity.
  - vm_compute. reflexivity.
Defined.

(** X12: [PostBlock] panics exactly on an unstake from an address without an
    entry: given the events of the block, the call panics if and only if some
    unstake event names a sender that has no ledger entry by the time the
    event is applied. *)
Theorem PostBlock_panics_iff_unknown_sender range_map s st req fvs events :
  fullValidatorSet st = Some fvs →
  eventsGetter_getFromBlocks s (BlockNumber fvs) (req_FullBlock req) = Some events →
  (PostBlock range_map s st req).2 = Panic ↔
  ¬ senders_known (dom (Validators fvs)) events.
Proof.
  intros Hst Hget. unfold PostBlock, getFullValidatorSet, updateWithReceipts.
  rewrite Hst, Hget.
  destruct events as [|event rest]; [simpl; split; [done|tauto]|].
  destruct (applyTransferEvents (Validators fvs) (event :: rest)) as [tr1 [sc|]] eqn:Ha.
  - destruct (foldl _ _ _) as [tr' sc']. cbn [snd]. split; [intros H; discriminate H|].
    intros Hn. exfalso. apply Hn. by eapply applyTransferEvents_senders_known.
  - cbn [snd]. split; [|done]. intros _. by eapply applyTransferEvents_panics.
Qed.

Lemma PostBlock_panics_iff_unknown_sender_witness :
  (PostBlock range_canonical manager_with_unstake_A (store_of ∅)
     block_7_request).2 = Panic ↔
  ¬ senders_known
      (dom (Validators {| BlockNumber := 0; EpochID := 0; UpdatedAtBlockNumber := 0;
                          Validators := ∅ |}))
      [unstake_event_A].
Proof.
  apply (PostBlock_panics_iff_unknown_sender range_canonical manager_with_unstake_A
           (store_of ∅) block_7_request).
  - reflexivity.
  - reflexivity.
Defined.

(** ** [PostEpoch] and [newValidatorStakeMap]: what the first epoch stores *)

Lemma foldl_insert_by_address_lookup (l : AccountSet) (m : validatorStakeMap) a :
  foldl (λ m v, <[Address v := v]> m) m l !! a =
  match last (filter (λ v, Address v = a) l) with
  | Some v => Some v
  | None => m !! a
  end.
Proof.
  revert m. induction l as [|x l IH]; intros m; simpl; [done|].
  rewrite IH, filter_cons. case_decide as Hx.
  - rewrite last_cons. destruct (last (filter (λ v, Address v = a) l)); [done|].
    subst a. apply lookup_insert_eq.
  - destruct (last (filter (λ v, Address v = a) l)); [done|].
    by apply lookup_insert_ne.
Qed.

(** X13: [PostEpoch] for epoch 1 replaces whatever the store held by a
    ledger at block 0 that files, under every address, the last account of
    the given set with that address (so each account of a set without
    duplicates, and nothing else). *)
Theorem PostEpoch_initialises st req :
  NewEpochID req = 1 →
  ∃ fvs, fullValidatorSet (PostEpoch st req) = Some fvs ∧
         BlockNumber fvs = 0 ∧ EpochID fvs = 0 ∧ UpdatedAtBlockNumber fvs = 0 ∧
         ∀ a, Validators fvs !! a =
              last (filter (λ v, Address v = a) (ValidatorSet_Accounts req)).
Proof.
  intros Hid. unfold PostEpoch. rewrite Hid. simpl.
  eexists. split; [done|]. simpl. repeat split.
  intros a. unfold newValidatorStakeMap. rewrite foldl_insert_by_address_lookup.
  rewrite lookup_empty. by destruct (last _).
Qed.

Lemma PostEpoch_initialises_witness :
  ∃ fvs, fullValidatorSet
           (PostEpoch (store_of scenario_ledger)
              {| NewEpochID := 1; ValidatorSet_Accounts := example_old_set |}) = Some fvs ∧
         BlockNumber fvs = 0 ∧ EpochID fvs = 0 ∧ UpdatedAtBlockNumber fvs = 0 ∧
         ∀ a, Validators fvs !! a =
              last (filter (λ v, Address v = a)
                      (ValidatorSet_Accounts
                         {| NewEpochID := 1; ValidatorSet_Accounts := example_old_set |})).
Proof.
  apply (PostEpoch_initialises (store_of scenario_ledger)
           {| NewEpochID := 1; ValidatorSet_Accounts := example_old_set |}).
  reflexivity.
Defined.

(** ** Runs of the hooks from an empty store *)

(** X14: until [PostEpoch] is called for epoch 1 nothing is stored: after
    any sequence of [PostBlock] calls and [PostEpoch] calls for other epochs
    the store is still empty, and on the empty store [PostBlock],
    [GetAllValidators] and [UpdateValidatorSet] each return the error of the
    missing validator set. *)
Theorem store_stays_empty_before_first_epoch range_map s hooks :
  Forall (λ h, ∀ req, h = HookPostEpoch req → NewEpochID req ≠ 1) hooks →
  foldl (runHook range_map s) empty_store hooks = empty_store ∧
  (∀ req, PostBlock range_map s empty_store req = ([], Err errNoFullValidatorSet)) ∧
  GetAllValidators range_map empty_store = Err errNoFullValidatorSet ∧
  (∀ ApplyDelta epoch maxValidatorSetSize oldValidatorSet,
     UpdateValidatorSet range_map ApplyDelta s empty_store epoch maxValidatorSetSize
       oldValidatorSet = Err (errFailedToGetFullValidatorSet epoch)).
Proof.
  intros Hall. split; [|done].
  induction Hall as [|h hooks Hh _ IH]; [done|]. simpl.
  assert (runHook range_map s empty_store h = empty_store) as ->; [|done].
  destruct h as [req|req]; simpl; [|done].
  unfold PostEpoch. destruct (Z.eqb_spec (NewEpochID req) 1) as [H1|_]; [|done].
  by destruct (Hh req eq_refl).
Qed.

Lemma store_stays_empty_before_first_epoch_witness :
  foldl (runHook range_canonical manager_with_stake_B) empty_store
    [HookPostBlock block_7_request;
     HookPostEpoch {| NewEpochID := 2; ValidatorSet_Accounts := example_old_set |}]
    = empty_store ∧
  (∀ req, PostBlock range_canonical manager_with_stake_B empty_store req
          = ([], Err errNoFullValidatorSet)) ∧
  GetAllValidators range_canonical empty_store = Err errNoFullValidatorSet ∧
  (∀ ApplyDelta epoch maxValidatorSetSize oldValidatorSet,
     UpdateValidatorSet range_canonical ApplyDelta manager_with_stake_B empty_store epoch
       maxValidatorSetSize oldValidatorSet = Err (errFailedToGetFullValidatorSet epoch)).
Proof.
  apply (store_stays_empty_before_first_epoch range_canonical manager_with_stake_B).
  repeat (apply List.Forall_cons; [intros req Hreq; inversion Hreq; simpl; lia|]).
  apply List.Forall_nil.
Defined.

Lemma runHook_wf range_map s st h :
  RangeOk range_map → store_wf st → store_wf (runHook range_map s st h).
Proof.
  intros Hr Hwf. destruct h as [req|req]; simpl; [by apply PostEpoch_wf|].
  destruct (PostBlock range_map s st req) as [tr [st'| |]] eqn:Hpb; try done.
  by eapply PostBlock_wf.
Qed.

Lemma runHooks_wf range_map s hooks st :
  RangeOk range_map → store_wf st → store_wf (foldl (runHook range_map s) st hooks).
Proof.
  intros Hr. revert st. induction hooks as [|h hooks IH]; intros st Hwf; simpl; [done|].
  by apply IH, runHook_wf.
Qed.

(** X15: on every store reached from the empty one through any sequence of
    [PostEpoch] and [PostBlock] calls, each record is filed under its own
    address, and the outcome of [UpdateValidatorSet] is the same under any two
    enumeration orders of the validator map. *)
Theorem UpdateValidatorSet_deterministic_on_runs
    range_map range_map1 range_map2 ApplyDelta s0 s hooks epoch maxValidatorSetSize
    oldValidatorSet :
  RangeOk range_map → RangeOk range_map1 → RangeOk range_map2 →
  store_wf (foldl (runHook range_map s0) empty_store hooks) ∧
  UpdateValidatorSet range_map1 ApplyDelta s
    (foldl (runHook range_map s0) empty_store hooks) epoch maxValidatorSetSize oldValidatorSet =
  UpdateValidatorSet range_map2 ApplyDelta s
    (foldl (runHook range_map s0) empty_store hooks) epoch maxValidatorSetSize oldValidatorSet.
Proof.
  intros Hr H1 H2.
  assert (store_wf (foldl (runHook range_map s0) empty_store hooks)) as Hwf
    by (apply runHooks_wf; [done|apply store_empty_wf]).
  split; [done|]. apply UpdateValidatorSet_ext. intros fvs Hfvs.
  rewrite (getSorted_canonical range_map1 H1) by by apply Hwf.
  rewrite (getSorted_canonical range_map2 H2) by by apply Hwf.
  done.
Qed.

Lemma UpdateValidatorSet_deterministic_on_runs_witness :
  store_wf (foldl (runHook range_reversed manager_with_three_events) empty_store
              [HookPostEpoch {| NewEpochID := 1; ValidatorSet_Accounts := example_old_set |};
               HookPostBlock block_7_request]) ∧
  UpdateValidatorSet range_canonical ApplyDelta_ok keyed_manager
    (foldl (runHook range_reversed manager_with_three_events) empty_store
       [HookPostEpoch {| NewEpochID := 1; ValidatorSet_Accounts := example_old_set |};
        HookPostBlock block_7_request]) 2 2 example_old_set =
  UpdateValidatorSet range_reversed ApplyDelta_ok keyed_manager
    (foldl (runHook range_reversed manager_with_three_events) empty_store
       [HookPostEpoch {| NewEpochID := 1; ValidatorSet_Accounts := example_old_set |};
        HookPostBlock block_7_request]) 2 2 example_old_set.
Proof.
  apply (UpdateValidatorSet_deterministic_on_runs range_reversed range_canonical range_reversed).
  - apply range_reversed_ok.
  - apply range_canonical_ok.
  - apply range_reversed_ok.
Defined.

(** ** [UpdateValidatorSet]: what a delta holds *)

Lemma scanOldValidatorSet_fst addressesSet i oldValidatorSet m bm :
  (scanOldValidatorSet addressesSet i oldValidatorSet (m, bm)).1 =
  foldl (λ m v, <[Address v := v]> m) m oldValidatorSet.
Proof.
  revert i m bm. induction oldValidatorSet as [|v l IH]; intros i m bm; simpl; [done|].
  apply IH.
Qed.

Lemma scanOldValidatorSet_all_present addressesSet i oldValidatorSet m bm :
  (∀ v, v ∈ oldValidatorSet → Address v ∈ addressesSet) →
  (scanOldValidatorSet addressesSet i oldValidatorSet (m, bm)).2 = bm.
Proof.
  revert i m bm. induction oldValidatorSet as [|v l IH]; intros i m bm Hall; simpl; [done|].
  rewrite decide_True by (apply Hall; left). apply IH. intros w Hw. apply Hall. by right.
Qed.

(** The second loop, read as two filters over the new set. *)
Lemma diffNewValidatorSet_filters s oldActiveMap newValidatorSet updated added updated' added' :
  diffNewValidatorSet s oldActiveMap newValidatorSet updated added = Ok (updated', added') →
  updated' = updated ++ filter (λ v, is_updated oldActiveMap v = true) newValidatorSet ∧
  added' = added ++ (with_key s <$> filter (λ v, is_added oldActiveMap v = true) newValidatorSet).
Proof.
  revert updated added.
  induction newValidatorSet as [|x l IH]; intros updated added.
  - simpl. intros [= <- <-]. by rewrite !app_nil_r.
  - cbn [diffNewValidatorSet].
    destruct (oldActiveMap !! Address x) as [o|] eqn:Ho.
    + assert (is_added oldActiveMap x = false) as Hadd by (unfold is_added; by rewrite Ho).
      rewrite (filter_cons_False (λ v, is_added oldActiveMap v = true)) by (rewrite Hadd; done).
      assert (is_updated oldActiveMap x = negb (VotingPower o =? VotingPower x)) as Hupd
        by (unfold is_updated; by rewrite Ho).
      unfold Cmp. destruct (Z.compare_spec (VotingPower o) (VotingPower x)) as [Heq|Hlt|Hgt].
      * rewrite filter_cons_False; [apply IH|].
        rewrite Hupd, Heq, Z.eqb_refl. done.
      * rewrite filter_cons_True.
        -- intros (-> & ->)%IH. by rewrite <- app_assoc.
        -- rewrite Hupd. rewrite (proj2 (Z.eqb_neq _ _)) by lia. done.
      * rewrite filter_cons_True.
        -- intros (-> & ->)%IH. by rewrite <- app_assoc.
        -- rewrite Hupd. rewrite (proj2 (Z.eqb_neq _ _)) by lia. done.
    + assert (is_added oldActiveMap x = true) as Hadd by (unfold is_added; by rewrite Ho).
      assert (is_updated oldActiveMap x = false) as Hupd by (unfold is_updated; by rewrite Ho).
      rewrite (filter_cons_True (λ v, is_added oldActiveMap v = true)) by done.
      rewrite (filter_cons_False (λ v, is_updated oldActiveMap v = true)) by (rewrite Hupd; done).
      rewrite fmap_cons.
      destruct (BlsKey x) as [k|] eqn:Hk.
      * intros (-> & ->)%IH. split; [done|]. rewrite <- app_assoc. simpl.
        do 2 f_equal. unfold with_key. rewrite Hk. by destruct x; simpl in *; subst.
      * destruct (getBlsKey s (Address x)) as [k|] eqn:Hg; [|done].
        intros (-> & ->)%IH. split; [done|]. rewrite <- app_assoc. simpl.
        do 2 f_equal. unfold with_key. by rewrite Hk, Hg.
Qed.

(** X16: what a returned delta holds: [Updated] is the sub-list, in
    selection order, of the new validators whose address is in the previous
    set with another voting power; [Added] is the sub-list of those whose
    address is not in the previous set, each with its stored key or else the
    key [getBlsKey] returned; a validator in both sets with the same power is
    in neither list. A new validator is compared with the last record of the
    previous set that has its address. *)
Theorem UpdateValidatorSet_delta_is_a_diff
    range_map ApplyDelta s st epoch maxValidatorSetSize oldValidatorSet delta :
  UpdateValidatorSet range_map ApplyDelta s st epoch maxValidatorSetSize oldValidatorSet
    = Ok delta →
  ∃ fvs newValidatorSet,
    fullValidatorSet st = Some fvs ∧
    getSorted range_map (Validators fvs) (int_of_uint64 maxValidatorSetSize)
      = Some newValidatorSet ∧
    Updated delta =
      filter (λ v, is_updated (oldActiveMap_of oldValidatorSet) v = true) newValidatorSet ∧
    Added delta =
      with_key s <$>
        filter (λ v, is_added (oldActiveMap_of oldValidatorSet) v = true) newValidatorSet ∧
    (∀ a, oldActiveMap_of oldValidatorSet !! a =
          last (filter (λ v, Address v = a) oldValidatorSet)).
Proof.
  intros (fvs & newValidatorSet & oldActiveMap & Hst & Hsorted & Hscan & Hdiff)%UpdateValidatorSet_Ok.
  exists fvs, newValidatorSet. split; [done|]. split; [done|].
  assert (oldActiveMap = oldActiveMap_of oldValidatorSet) as ->.
  { unfold oldActiveMap_of. rewrite <- (scanOldValidatorSet_fst
      (addressesSet_of newValidatorSet) 0 oldValidatorSet ∅ []). by rewrite Hscan. }
  apply diffNewValidatorSet_filters in Hdiff as [-> ->]. simpl.
  split; [done|]. split; [done|].
  intros a. unfold oldActiveMap_of. rewrite foldl_insert_by_address_lookup, lookup_empty.
  by destruct (last _).
Qed.

Lemma UpdateValidatorSet_delta_is_a_diff_witness :
  ∃ fvs newValidatorSet,
    fullValidatorSet (store_of scenario_ledger) = Some fvs ∧
    getSorted range_reversed (Validators fvs) (int_of_uint64 2) = Some newValidatorSet ∧
    Updated example_delta =
      filter (λ v, is_updated (oldActiveMap_of example_old_set) v = true) newValidatorSet ∧
    Added example_delta =
      with_key keyed_manager <$>
        filter (λ v, is_added (oldActiveMap_of example_old_set) v = true) newValidatorSet ∧
    (∀ a, oldActiveMap_of example_old_set !! a =
          last (filter (λ v, Address v = a) example_old_set)).
Proof.
  apply (UpdateValidatorSet_delta_is_a_diff range_reversed ApplyDelta_ok keyed_manager
           (store_of scenario_ledger) 1 2 example_old_set example_delta).
  vm_compute. reflexivity.
Defined.

Lemma last_filter_by_address (l : AccountSet) v :
  NoDup (Address <$> l) → v ∈ l →
  last (filter (λ u, Address u = Address v) l) = Some v.
Proof.
  induction l as [|x l IH]; intros Hnd Hin; [by apply elem_of_nil in Hin|].
  rewrite fmap_cons in Hnd. apply NoDup_cons in Hnd as [Hx Hnd].
  destruct (decide (Address x = Address v)) as [Heq|Hne].
  - rewrite filter_cons_True by done. rewrite last_cons.
    assert (v = x) as ->.
    { apply elem_of_cons in Hin as [?|Hin]; [done|].
      exfalso. apply Hx. rewrite Heq. by apply list_elem_of_fmap_2. }
    destruct (last (filter (λ u, Address u = Address x) l)) as [y|] eqn:Hy; [|done].
    exfalso. apply Hx.
    assert (y ∈ filter (λ u, Address u = Address x) l) as Hyin.
    { apply last_Some in Hy as [l' ->]. apply elem_of_app. right. by left. }
    apply list_elem_of_filter in Hyin as [<- Hyl]. by apply list_elem_of_fmap_2.
  - rewrite filter_cons_False by done. apply IH; [done|].
    apply elem_of_cons in Hin as [->|?]; [done|done].
Qed.

Lemma diffNewValidatorSet_unchanged s oldActiveMap newValidatorSet updated added :
  (∀ v, v ∈ newValidatorSet →
     ∃ o, oldActiveMap !! Address v = Some o ∧ VotingPower o = VotingPower v) →
  diffNewValidatorSet s oldActiveMap newValidatorSet updated added = Ok (updated, added).
Proof.
  induction newValidatorSet as [|x l IH]; intros Hall; simpl; [done|].
  destruct (Hall x) as (o & -> & Heq); [by left|].
  unfold Cmp. rewrite Heq, Z.compare_refl. apply IH. intros v Hv. apply Hall. by right.
Qed.

(** X17: selecting again changes nothing: when the previous set is exactly
    the slice [getSorted] returns for the stored ledger, the delta is empty:
    nothing added, nothing updated, no position removed (at debug level the
    call still depends on [ApplyDelta] accepting that delta). *)
Theorem UpdateValidatorSet_up_to_date_set
    range_map ApplyDelta s st fvs epoch maxValidatorSetSize oldValidatorSet :
  RangeOk range_map →
  fullValidatorSet st = Some fvs →
  ledger_wf (Validators fvs) →
  getSorted range_map (Validators fvs) (int_of_uint64 maxValidatorSetSize)
    = Some oldValidatorSet →
  UpdateValidatorSet range_map ApplyDelta s st epoch maxValidatorSetSize oldValidatorSet =
  if logger_IsDebug s then
    match ApplyDelta oldValidatorSet empty_delta with
    | None => Err errApplyDelta
    | Some _ => Ok empty_delta
    end
  else Ok empty_delta.
Proof.
  intros Hr Hst Hwf Hsorted.
  destruct (getSorted_members range_map _ _ _ Hr Hwf Hsorted) as [Hnd _].
  unfold UpdateValidatorSet, getFullValidatorSet. rewrite Hst, Hsorted.
  destruct (scanOldValidatorSet (addressesSet_of oldValidatorSet) 0 oldValidatorSet (∅, []))
    as [oldActiveMap removedBitmap] eqn:Hscan.
  assert (oldActiveMap = oldActiveMap_of oldValidatorSet) as ->.
  { unfold oldActiveMap_of. rewrite <- (scanOldValidatorSet_fst
      (addressesSet_of oldValidatorSet) 0 oldValidatorSet ∅ []). by rewrite Hscan. }
  assert (removedBitmap = []) as ->.
  { rewrite <- (scanOldValidatorSet_all_present
      (addressesSet_of oldValidatorSet) 0 oldValidatorSet ∅ []); [by rewrite Hscan|].
    intros v Hv. apply elem_of_addressesSet_of. by apply list_elem_of_fmap_2. }
  rewrite diffNewValidatorSet_unchanged; [done|].
  intros v Hv. exists v. split; [|done].
  unfold oldActiveMap_of. rewrite foldl_insert_by_address_lookup.
  by rewrite last_filter_by_address.
Qed.

Lemma UpdateValidatorSet_up_to_date_set_witness :
  UpdateValidatorSet range_reversed ApplyDelta_ok keyed_manager (store_of scenario_ledger)
    1 2 [staker addrA 10; staker addrB 10] =
  if logger_IsDebug keyed_manager then
    match ApplyDelta_ok [staker addrA 10; staker addrB 10] empty_delta with
    | None => Err errApplyDelta
    | Some _ => Ok empty_delta
    end
  else Ok empty_delta.
Proof.
  apply (UpdateValidatorSet_up_to_date_set range_reversed ApplyDelta_ok keyed_manager
           (store_of scenario_ledger)
           {| BlockNumber := 0; EpochID := 0; UpdatedAtBlockNumber := 0;
              Validators := scenario_ledger |}).
  - apply range_reversed_ok.
  - reflexivity.
  - apply ledger_of_stakes_wf.
  - vm_compute. reflexivity.
Defined.

(** X18: a validator of the previous set whose recorded voting power is zero
    or below, or that has no ledger entry at all, is marked removed in every
    returned delta. *)
Theorem UpdateValidatorSet_removes_powerless
    range_map ApplyDelta s st fvs epoch maxValidatorSetSize oldValidatorSet delta (i : nat) o :
  RangeOk range_map →
  fullValidatorSet st = Some fvs →
  ledger_wf (Validators fvs) →
  UpdateValidatorSet range_map ApplyDelta s st epoch maxValidatorSetSize oldValidatorSet
    = Ok delta →
  oldValidatorSet !! i = Some o →
  powerOf (Validators fvs) (Address o) ≤ 0 →
  Bitmap_IsSet (Removed delta) (Z.of_nat i) = true.
Proof.
  intros Hr Hst Hwf (fvs0 & newValidatorSet & oldActiveMap & Hst0 & Hsorted & Hscan & _)%UpdateValidatorSet_Ok
    Hi Hpow.
  rewrite Hst in Hst0. injection Hst0 as <-.
  assert (Removed delta =
    (scanOldValidatorSet (addressesSet_of newValidatorSet) 0 oldValidatorSet (∅, [])).2) as ->
    by by rewrite Hscan.
  apply scanOldValidatorSet_bitmap; [lia|lia|]. right.
  exists i, o. split; [done|]. split; [lia|].
  rewrite elem_of_addressesSet_of. intros (v & Hav & Hv)%list_elem_of_fmap.
  destruct (getSorted_members range_map _ _ _ Hr Hwf Hsorted) as [_ Hmem].
  destruct (Hmem v Hv) as [Hl Hp].
  unfold powerOf in Hpow. rewrite Hav, Hl in Hpow. lia.
Qed.

Lemma UpdateValidatorSet_removes_powerless_witness :
  Bitmap_IsSet (Removed example_delta) (Z.of_nat 1) = true.
Proof.
  apply (UpdateValidatorSet_removes_powerless range_reversed ApplyDelta_ok keyed_manager
           (store_of scenario_ledger)
           {| BlockNumber := 0; EpochID := 0; UpdatedAtBlockNumber := 0;
              Validators := scenario_ledger |}
           1 2 example_old_set example_delta 1
           {| Address := addrD; BlsKey := Some [9%N]; VotingPower := 10; IsActive := true |}).
  - apply range_reversed_ok.
  - reflexivity.
  - apply ledger_of_stakes_wf.
  - vm_compute. reflexivity.
  - reflexivity.
  - vm_compute. discriminate.
Defined.

(** X19: with a maximum set size of 0 the new set is empty: the delta adds
    and updates nothing and marks every position of the previous set removed,
    and no key lookup can fail the call. *)
Theorem UpdateValidatorSet_size_zero
    range_map ApplyDelta s st fvs epoch oldValidatorSet :
  fullValidatorSet st = Some fvs →
  ∃ removedBitmap,
    (∀ (i : nat) o, oldValidatorSet !! i = Some o →
       Bitmap_IsSet removedBitmap (Z.of_nat i) = true) ∧
    UpdateValidatorSet range_map ApplyDelta s st epoch 0 oldValidatorSet =
    if logger_IsDebug s then
      match ApplyDelta oldValidatorSet
              {| Added := []; Updated := []; Removed := removedBitmap |} with
      | None => Err errApplyDelta
      | Some _ => Ok {| Added := []; Updated := []; Removed := removedBitmap |}
      end
    else Ok {| Added := []; Updated := []; Removed := removedBitmap |}.
Proof.
  intros Hst.
  exists (scanOldValidatorSet (addressesSet_of []) 0 oldValidatorSet (∅, [])).2. split.
  - intros i o Hi. apply scanOldValidatorSet_bitmap; [lia|lia|]. right.
    exists i, o. split; [done|]. split; [lia|].
    rewrite elem_of_addressesSet_of. apply not_elem_of_nil.
  - unfold UpdateValidatorSet, getFullValidatorSet. rewrite Hst.
    rewrite int_of_uint64_small by lia. rewrite getSorted_nonneg by lia.
    change (Z.to_nat 0) with 0%nat. rewrite take_0.
    by destruct (scanOldValidatorSet (addressesSet_of []) 0 oldValidatorSet (∅, [])).
Qed.

Lemma UpdateValidatorSet_size_zero_witness :
  ∃ removedBitmap,
    (∀ (i : nat) o, example_old_set !! i = Some o →
       Bitmap_IsSet removedBitmap (Z.of_nat i) = true) ∧
    UpdateValidatorSet range_canonical ApplyDelta_ok quiet_manager (store_of scenario_ledger)
      1 0 example_old_set =
    if logger_IsDebug quiet_manager then
      match ApplyDelta_ok example_old_set
              {| Added := []; Updated := []; Removed := removedBitmap |} with
      | None => Err errApplyDelta
      | Some _ => Ok {| Added := []; Updated := []; Removed := removedBitmap |}
      end
    else Ok {| Added := []; Updated := []; Removed := removedBitmap |}.
Proof.
  apply (UpdateValidatorSet_size_zero range_canonical ApplyDelta_ok quiet_manager
           (store_of scenario_ledger)
           {| BlockNumber := 0; EpochID := 0; UpdatedAtBlockNumber := 0;
              Validators := scenario_ledger |}).
  reflexivity.
Defined.

(** X20: a maximum set size of 2^63 or more makes [UpdateValidatorSet] panic
    on every initialised store: [int(maxValidatorSetSize)] is negative and the
    slice expression of [getSorted] is out of range. *)
Theorem UpdateValidatorSet_panics_beyond_int
    range_map ApplyDelta s st fvs epoch maxValidatorSetSize oldValidatorSet :
  fullValidatorSet st = Some fvs →
  2 ^ 63 ≤ maxValidatorSetSize < 2 ^ 64 →
  UpdateValidatorSet range_map ApplyDelta s st epoch maxValidatorSetSize oldValidatorSet
    = Panic.
Proof.
  intros Hst Hmax. unfold UpdateValidatorSet, getFullValidatorSet. rewrite Hst.
  rewrite getSorted_negative; [done|].
  rewrite int_of_uint64_large by done. lia.
Qed.

Lemma UpdateValidatorSet_panics_beyond_int_witness :
  UpdateValidatorSet range_reversed ApplyDelta_ok keyed_manager (store_of scenario_ledger)
    1 (2 ^ 64 - 1) example_old_set = Panic.
Proof.
  apply (UpdateValidatorSet_panics_beyond_int range_reversed ApplyDelta_ok keyed_manager
           (store_of scenario_ledger)
           {| BlockNumber := 0; EpochID := 0; UpdatedAtBlockNumber := 0;
              Validators := scenario_ledger |}).
  - reflexivity.
  - lia.
Defined.
